(** * page2cbr: extraction, ordering, download and packaging pipeline

    A shallow embedding of [page2cbr.py].

    Python strings are sequences of Unicode code points.  The functions of
    the Python runtime and of the third-party libraries the program calls
    (the Unicode character database, [html.unescape], [urllib.parse],
    BeautifulSoup) are the fields of the class [Runtime], so that every
    theorem holds for whatever these libraries compute; the module
    [Latin1] gives them on the inputs of the concrete runs.

    The network, the file system and the external packer are the fields
    of a [World].  The exceptions the program raises or catches are
    modelled where it does so: a request or a stream that fails
    ([RequestException]), a file that cannot be opened or removed
    ([OSError]), a packer that fails, a ZIP archive that cannot be written
    at the output path ([OSError], which nobody catches), a [urljoin], an
    [int] or a comparison that raises.  An [OSError] while writing to the
    open file of a download, which leaves a partial file as a broken stream
    does, is left out, as are the messages printed and the removal of the
    temporary directory.

    Python integers are unbounded, but [int] refuses a string of more
    digits than the interpreter's cap, [sys.get_int_max_str_digits()], a
    field of [Runtime]: 4300 unless the interpreter is started otherwise,
    and 0 when there is no cap.

    [urlparse], at line 260, is applied to what [urljoin] returned, on which
    it does not raise: [urljoin] has parsed the same host. *)

From Stdlib Require Import Ascii String DecimalNat.
From stdpp Require Import base numbers option list sorting gmap.

Open Scope N_scope.

(** ** Strings *)

Abbreviation str := (list N).

(** A literal written in ASCII, as the sequence of its code points. *)
Definition py (s : string) : str := N_of_ascii <$> list_ascii_of_string s.

Definition QUOT : N := 34. (* U+0022 *)
Definition APOS : N := 39. (* U+0027 *)

(** [str.isspace] on one character (CPython's [_PyUnicode_IsWhitespace]). *)
Definition isspace (c : N) : bool :=
  ((9 <=? c) && (c <=? 13)) || ((28 <=? c) && (c <=? 32))
  || (c =? 133) || (c =? 160) || (c =? 5760)
  || ((8192 <=? c) && (c <=? 8202))
  || (c =? 8232) || (c =? 8233) || (c =? 8239) || (c =? 8287) || (c =? 12288).

Fixpoint drop_while {A} (p : A → bool) (l : list A) : list A :=
  match l with
  | [] => []
  | x :: l' => if p x then drop_while p l' else l
  end.

Fixpoint take_while {A} (p : A → bool) (l : list A) : list A :=
  match l with
  | [] => []
  | x :: l' => if p x then x :: take_while p l' else []
  end.

Definition lstrip (s : str) : str := drop_while isspace s.
Definition rstrip (s : str) : str := reverse (drop_while isspace (reverse s)).

(** [s.strip()] *)
Definition strip (s : str) : str := rstrip (lstrip s).

(** [s.startswith(c)] and [s.endswith(c)] for a one-character [c]. *)
Definition startswith1 (c : N) (s : str) : bool :=
  match s with x :: _ => x =? c | [] => false end.
Definition endswith1 (c : N) (s : str) : bool :=
  match last s with Some x => x =? c | None => false end.

(** [s[1:-1]] *)
Definition slice_1_m1 (s : str) : str := take (length s - 2)%nat (drop 1 s).

(** [s.split(sep)] for a one-character separator: the pieces between the
    separators, empty pieces included. *)
Fixpoint split_on (sep : N) (s : str) : list str :=
  match s with
  | [] => [[]]
  | c :: s' =>
      if c =? sep then [] :: split_on sep s'
      else match split_on sep s' with
           | p :: ps => (c :: p) :: ps
           | [] => [[c]]
           end
  end.

(** [s.split()]: the maximal runs of non-whitespace characters. *)
Fixpoint split_ws_aux (cur : str) (s : str) : list str :=
  match s with
  | [] => if bool_decide (cur = []) then [] else [reverse cur]
  | c :: s' =>
      if isspace c
      then (if bool_decide (cur = []) then split_ws_aux [] s'
            else reverse cur :: split_ws_aux [] s')
      else split_ws_aux (c :: cur) s'
  end.
Definition split_ws (s : str) : list str := split_ws_aux [] s.

(** [needle in s] *)
Fixpoint is_prefix_of (p s : str) : bool :=
  match p, s with
  | [], _ => true
  | x :: p', y :: s' => (x =? y) && is_prefix_of p' s'
  | _ :: _, [] => false
  end.
Fixpoint contains (needle s : str) : bool :=
  is_prefix_of needle s ||
  match s with
  | [] => false
  | _ :: s' => contains needle s'
  end.

(** Comparison of two strings with [<]: lexicographic on code points. *)
Fixpoint str_lt (a b : str) : bool :=
  match a, b with
  | _, [] => false
  | [], _ :: _ => true
  | x :: a', y :: b' => (x <? y) || ((x =? y) && str_lt a' b')
  end.

(** ** Exceptions *)

Inductive exn :=
  | ValueError
  | TypeError
  | RuntimeError
  | OSError.

Inductive result (A : Type) :=
  | Ok (a : A)
  | Raise (e : exn).
Arguments Ok {A} a.
Arguments Raise {A} e.

Definition rbind {A B} (m : result A) (f : A → result B) : result B :=
  match m with
  | Ok a => f a
  | Raise e => Raise e
  end.

Notation "x ←! m ; k" := (rbind m (fun x => k))
  (at level 20, m at level 100, k at level 200, only parsing).

Fixpoint rmap {A B} (f : A → result B) (l : list A) : result (list B) :=
  match l with
  | [] => Ok []
  | x :: l' => y ←! f x; ys ←! rmap f l'; Ok (y :: ys)
  end.

(** A loop that an exception leaves. *)
Fixpoint rfoldl {A B} (f : A → B → result A) (a : A) (l : list B) : result A :=
  match l with
  | [] => Ok a
  | x :: l' => a' ←! f a x; rfoldl f a' l'
  end.

(** ** The parsed document *)

(** What the program reads of a BeautifulSoup document: the [img] and the
    [a] elements in document order, each with its attributes. *)
Record Soup := {
  soup_imgs : list (gmap str str);
  soup_anchors : list (gmap str str);
}.

(** ** The Python runtime and the libraries *)

Class Runtime := {
  (** the decimal value of a character of category Nd: the characters
      [\d] matches and [int] reads *)
  unicode_decimal : N → option N;
  (** the characters [str.isdigit] accepts that are not decimal
      (Numeric_Type=Digit: superscripts, circled digits, ...) *)
  unicode_other_digit : N → bool;
  (** [s.lower()] *)
  str_lower : str → str;
  (** whether a literal character of a pattern compiled with
      [re.IGNORECASE] matches a character of the subject *)
  re_ignorecase_eq : N → N → bool;
  (** [html.unescape] *)
  html_unescape : str → str;
  (** [urllib.parse.urljoin], which raises [ValueError] on a host that
      [urlsplit] rejects *)
  urljoin : str → str → result str;
  (** [os.path.splitext(urlparse(u).path)[1]] *)
  url_path_ext : str → str;
  (** the document BeautifulSoup parses out of the page with lxml *)
  BeautifulSoup : str → Soup;
  (** the iteration of the set of the matches of the absolute-URL
      pattern in the page text, in the order the interpreter happens to
      produce *)
  raw_url_scan : str → list str;
  (** [sys.get_int_max_str_digits()]: the most digits [int] converts, 0
      when there is no cap (the interpreter accepts no other value below
      640) *)
  int_max_str_digits : nat;
}.

(** ** The program *)

(** An element of a natural-sort key: Python's [int] or [str]. *)
Inductive key_elem :=
  | KInt (n : N)
  | KStr (s : str).

Section program.
Context `{RT : Runtime}.

Definition is_decimal (c : N) : bool :=
  match unicode_decimal c with Some _ => true | None => false end.

(** [re.split(r"(\d+)", s)]: the text before the first run of decimal
    digits, that run, the text up to the next run, and so on up to the text
    after the last run; the runs are maximal and a text piece may be empty. *)
Fixpoint re_split_digits (s : str) : list str :=
  match s with
  | [] => [[]]
  | c :: s' =>
      match re_split_digits s' with
      | t0 :: rest =>
          if is_decimal c then
            match t0, rest with
            | [], d :: rest' => [] :: (c :: d) :: rest'
            | _, _ => [] :: [c] :: t0 :: rest
            end
          else (c :: t0) :: rest
      | [] => [[c]]
      end
  end.

(** [t.isdigit()] *)
Definition isdigit (t : str) : bool :=
  match t with
  | [] => false
  | _ :: _ => forallb (fun c => is_decimal c || unicode_other_digit c) t
  end.

Fixpoint int_digits (acc : N) (t : str) : result N :=
  match t with
  | [] => Ok acc
  | c :: t' =>
      match unicode_decimal c with
      | Some v => int_digits (10 * acc + v) t'
      | None => Raise ValueError
      end
  end.

(** The string has more characters than [int] converts. *)
Definition int_too_long (t : str) : bool :=
  (0 <? int_max_str_digits)%nat && (int_max_str_digits <? length t)%nat.

(** [int(t)] on a string of digit characters (the program calls it on
    nothing else): the value in base ten when every character is decimal
    and there are no more of them than the cap allows, zeros in front
    included. *)
Definition int (t : str) : result N :=
  if int_too_long t then Raise ValueError
  else match t with
       | [] => Raise ValueError
       | _ :: _ => int_digits 0 t
       end.

Definition key_of_token (t : str) : result key_elem :=
  if isdigit t then n ←! int t; Ok (KInt n) else Ok (KStr (str_lower t)).

Definition natural_key (s : str) : result (list key_elem) :=
  rmap key_of_token (re_split_digits s).

(** [x == y] and [x < y] on key elements: an [int] and a [str] are unequal,
    and ordering them raises [TypeError]. *)
Definition elem_eqb (x y : key_elem) : bool :=
  match x, y with
  | KInt a, KInt b => a =? b
  | KStr a, KStr b => bool_decide (a = b)
  | _, _ => false
  end.

Definition elem_lt (x y : key_elem) : result bool :=
  match x, y with
  | KInt a, KInt b => Ok (a <? b)
  | KStr a, KStr b => Ok (str_lt a b)
  | _, _ => Raise TypeError
  end.

(** [k1 < k2] on lists: decided at the first position where the elements
    are unequal, by length when one list is a prefix of the other. *)
Fixpoint key_lt (k1 k2 : list key_elem) : result bool :=
  match k1, k2 with
  | _, [] => Ok false
  | [], _ :: _ => Ok true
  | x :: k1', y :: k2' => if elem_eqb x y then key_lt k1' k2' else elem_lt x y
  end.

(** [sorted(l, key=natural_key)]: every key is computed first, then the
    items are ordered by [<] on the keys.  Python's sort is stable; so is
    this insertion sort, and on keys that [<] orders without raising every
    stable sort returns the same list. *)
Fixpoint insert_by_key {A} (x : list key_elem * A)
    (l : list (list key_elem * A)) : result (list (list key_elem * A)) :=
  match l with
  | [] => Ok [x]
  | y :: l' =>
      b ←! key_lt y.1 x.1;
      if b then (r ←! insert_by_key x l'; Ok (y :: r)) else Ok (x :: y :: l')
  end.

Fixpoint sort_by_key {A} (l : list (list key_elem * A))
    : result (list (list key_elem * A)) :=
  match l with
  | [] => Ok []
  | x :: l' => r ←! sort_by_key l'; insert_by_key x r
  end.

Definition sorted_natural (l : list str) : result (list str) :=
  keys ←! rmap natural_key l;
  r ←! sort_by_key (zip keys l);
  Ok (r.*2).

(** [IMG_EXT_RE]: a dot, one of the extensions [jpe?g|png|gif|webp|bmp|tiff?]
    in any case, then [?], [#] or the end of the string (which [$] also
    finds before a final newline). *)
Definition IMG_EXTS : list str :=
  py <$> ["jpg"; "jpeg"; "png"; "gif"; "webp"; "bmp"; "tif"; "tiff"]%string.

Fixpoint ignorecase_prefix (pat s : str) : option str :=
  match pat, s with
  | [], _ => Some s
  | p :: pat', c :: s' =>
      if re_ignorecase_eq p c then ignorecase_prefix pat' s' else None
  | _ :: _, [] => None
  end.

Definition img_ext_end (rest : str) : bool :=
  match rest with
  | [] => true
  | c :: r => (c =? 63) || (c =? 35) || ((c =? 10) && bool_decide (r = []))
  end.

Definition img_ext_match_here (s : str) : bool :=
  match s with
  | c :: s' =>
      (c =? 46) &&
      existsb (fun e => match ignorecase_prefix e s' with
                        | Some r => img_ext_end r
                        | None => false
                        end) IMG_EXTS
  | [] => false
  end.

Fixpoint img_ext_search (s : str) : bool :=
  img_ext_match_here s ||
  match s with
  | [] => false
  | _ :: s' => img_ext_search s'
  end.

Definition is_probably_image_url (u : str) : bool := img_ext_search u.

Definition clean_url (u : str) : str :=
  let u := strip (html_unescape u) in
  let u :=
    if (startswith1 QUOT u && endswith1 QUOT u)
       || (startswith1 APOS u && endswith1 APOS u)
    then slice_1_m1 u else u in
  strip u.

(** [parse_srcset]: [part.split()[0]] is taken of a non-empty stripped
    part, whose split has a first field (lemma [split_ws_strip]). *)
Definition parse_srcset_part (urls : list str) (part : str) : list str :=
  let part := strip part in
  if bool_decide (part = []) then urls
  else match split_ws part with
       | f :: _ =>
           let url := strip f in
           if bool_decide (url = []) then urls else urls ++ [url]
       | [] => urls
       end.

Definition parse_srcset (srcset : str) : list str :=
  foldl parse_srcset_part [] (split_on 44 srcset).

(** [if v:] on the result of [tag.get(attr)]: present and not empty. *)
Definition truthy (v : option str) : option str :=
  match v with
  | Some [] => None
  | Some s => Some s
  | None => None
  end.

Definition IMG_ATTRS : list str :=
  py <$> ["src"; "data-src"; "data-original"; "data-lazy"; "data-img";
          "data-image"]%string.

Definition img_values (img : gmap str str) : list str :=
  omap (fun attr => truthy (img !! attr)) IMG_ATTRS ++
  match truthy (img !! py "srcset") with
  | Some srcset => parse_srcset srcset
  | None =>
      match truthy (img !! py "data-srcset") with
      | Some srcset => parse_srcset srcset
      | None => []
      end
  end.

Definition anchor_values (a : gmap str str) : list str :=
  match truthy (a !! py "href") with
  | Some href => if is_probably_image_url href then [href] else []
  | None => []
  end.

(** The raw values in the order the three passes append them to [urls]. *)
Definition collected_from_imgs (html : str) : list str :=
  soup_imgs (BeautifulSoup html) ≫= img_values.
Definition collected_from_anchors (html : str) : list str :=
  soup_anchors (BeautifulSoup html) ≫= anchor_values.
Definition collected_from_scan (html : str) : list str :=
  filter (fun c => is_probably_image_url c = true) (raw_url_scan html).
Definition collected (html : str) : list str :=
  collected_from_imgs html ++ collected_from_anchors html
  ++ collected_from_scan html.

(** One turn of the normalising loop, on the pair of [norm] and [seen];
    an exception of [urljoin] leaves the loop and the function. *)
Definition dedupe_step (base_url : str) (st : list str * gset str) (u : str)
    : result (list str * gset str) :=
  let u := clean_url u in
  if bool_decide (u = []) then Ok st
  else
    abs_u ←! urljoin base_url u;
    if bool_decide (abs_u ∈ st.2) then Ok st
    else Ok (st.1 ++ [abs_u], {[abs_u]} ∪ st.2).

Definition extract_image_urls_from_html (base_url html : str)
    : result (list str) :=
  st ←! rfoldl (dedupe_step base_url) ([], ∅) (collected html);
  Ok st.1.

End program.

(** ** The world outside the program *)

(** A response whose status [raise_for_status] accepts: the declared
    content type, the chunks [iter_content] yields, and whether the stream
    breaks (a [RequestException]) after the last of them. *)
Record Response := {
  resp_content_type : option str;
  resp_chunks : list (list Byte.byte);
  resp_stream_breaks : bool;
}.

Record World := {
  (** the page HTML by a plain request and by a rendered one; [None] when
      the request or the browser raises *)
  fetch_plain : str → option str;
  fetch_rendered : str → option str;
  (** [session.get] and [raise_for_status] on an image URL; [None] when
      either raises a [RequestException] *)
  http_get : str → option Response;
  (** [open(path, wb)] raises [OSError] *)
  open_fails : str → bool;
  (** [os.remove(path)] raises [OSError] *)
  remove_fails : str → bool;
  (** [shutil.which] finds the command *)
  which : str → bool;
  (** the packer, run with this command line in the working directory,
      starts and returns 0 *)
  run_rar : list str → bool;
  (** [zipfile.ZipFile] cannot create the archive at this path, or a write
      to it fails: [OSError] *)
  zip_fails : str → bool;
}.

(** The files of the working directory [images_dir], by name. *)
Abbreviation Dir := (gmap str (list Byte.byte)).

(** The reason a download failed: the program keeps a message, of which
    the model keeps the kind and, for a content type, the value shown. *)
Inductive Reason :=
  | NoReason
  | NotAnImage (ctype : str)
  | TooSmall
  | HttpError
  | FsError.

Record DownloadResult := {
  ok : bool;
  path : str;
  url : str;
  reason : Reason;
}.

Record Args := {
  arg_url : str;
  arg_output : str;
  arg_max_images : Z;
  arg_no_ext_filter : bool;
  arg_rar : option str;
  arg_playwright : bool;
}.

(** What the packaging step leaves behind: the command line the packer
    completed, or the ZIP archive written, entry by entry. *)
Inductive Archive :=
  | RarArchive (out_cbr : str) (cmd : list str)
  | ZipDeflated (out_cbz : str) (entries : list (str * list Byte.byte)).

(** How the process ends: [sys.exit] or the return of [main], with the
    archive produced if any, or an exception nobody catches. *)
Inductive Outcome :=
  | Exit (code : Z) (archive : option Archive)
  | Uncaught (e : exn).

Record Loop := {
  ok_count : nat;
  failures : list (str * Reason);
  images_dir : Dir;
}.

Section pipeline.
Context `{RT : Runtime}.
Variable w : World.

(** [download_one]; the directory is threaded through, [out_path] is the
    name of the file inside it.  The session, the referer and the timeout
    only shape the request, whose outcome the world gives. *)
Definition download_one (dir : Dir) (u out_path : str) : DownloadResult * Dir :=
  match http_get w u with
  | None => ({| ok := false; path := out_path; url := u; reason := HttpError |}, dir)
  | Some r =>
      let ctype := str_lower (default [] (resp_content_type r)) in
      if negb (contains (py "image") ctype) && negb (is_probably_image_url u)
      then ({| ok := false; path := out_path; url := u;
               reason := NotAnImage ctype |}, dir)
      else if open_fails w out_path
      then ({| ok := false; path := out_path; url := u; reason := FsError |}, dir)
      else
        let data := concat (filter (fun chunk => chunk ≠ []) (resp_chunks r)) in
        let dir := <[out_path := data]> dir in
        if resp_stream_breaks r
        then ({| ok := false; path := out_path; url := u; reason := HttpError |}, dir)
        else if (length data <? 1024)%nat
        then ({| ok := false; path := out_path; url := u; reason := TooSmall |}, dir)
        else ({| ok := true; path := out_path; url := u; reason := NoReason |}, dir)
  end.

Fixpoint uint_digits (d : Decimal.uint) : str :=
  match d with
  | Decimal.Nil => []
  | Decimal.D0 d => 48 :: uint_digits d
  | Decimal.D1 d => 49 :: uint_digits d
  | Decimal.D2 d => 50 :: uint_digits d
  | Decimal.D3 d => 51 :: uint_digits d
  | Decimal.D4 d => 52 :: uint_digits d
  | Decimal.D5 d => 53 :: uint_digits d
  | Decimal.D6 d => 54 :: uint_digits d
  | Decimal.D7 d => 55 :: uint_digits d
  | Decimal.D8 d => 56 :: uint_digits d
  | Decimal.D9 d => 57 :: uint_digits d
  end.

(** [f"{idx:04d}"] *)
Definition format_04d (idx : nat) : str :=
  let s := uint_digits (Nat.to_uint idx) in
  replicate (4 - length s) 48 ++ s.

(** The file name of the candidate at index [idx] (lines 260 to 263). *)
Definition fname_of (idx : nat) (u : str) : str :=
  let ext := str_lower (url_path_ext u) in
  let ext := if bool_decide (ext = []) || (6 <? length ext)%nat
             then py ".jpg" else ext in
  format_04d idx ++ ext.

(** One turn of the download loop. *)
Definition download_item (st : Loop) (item : nat * str) : Loop :=
  let '(idx, u) := item in
  let fname := fname_of idx u in
  let '(res, dir) := download_one (images_dir st) u fname in
  if ok res
  then {| ok_count := S (ok_count st); failures := failures st;
          images_dir := dir |}
  else
    {| ok_count := ok_count st;
       failures := failures st ++ [(u, reason res)];
       images_dir :=
         if bool_decide (is_Some (dir !! fname)) && negb (remove_fails w fname)
         then delete fname dir else dir |}.

(** [enumerate(img_urls, start=1)] *)
Definition enumerate1 {A} (l : list A) : list (nat * A) :=
  zip (seq 1 (length l)) l.

Definition download_all (img_urls : list str) : Loop :=
  foldl download_item
    {| ok_count := 0; failures := []; images_dir := ∅ |}
    (enumerate1 img_urls).

Definition find_rar_executable (explicit : option str) : option str :=
  match truthy explicit with
  | Some e => Some e
  | None =>
      if which w (py "rar") then Some (py "rar")
      else if which w (py "rar.exe") then Some (py "rar.exe")
      else None
  end.

(** The names [os.listdir] returns, all of files, sorted with
    [natural_key]. *)
Definition sorted_files (dir : Dir) : result (list str) :=
  sorted_natural (elements (dom dir)).

Definition make_cbr_with_rar (rar_cmd : str) (dir : Dir) (out_cbr : str)
    : result Archive :=
  files ←! sorted_files dir;
  if bool_decide (files = []) then Raise RuntimeError
  else
    let cmd := [rar_cmd; py "a"; py "-ep"; py "-idq"; out_cbr] ++ files in
    if run_rar w cmd then Ok (RarArchive out_cbr cmd) else Raise RuntimeError.

Definition make_cbz_zip (dir : Dir) (out_cbz : str) : result Archive :=
  files ←! sorted_files dir;
  if bool_decide (files = []) then Raise RuntimeError
  else if zip_fails w out_cbz then Raise OSError
  else Ok (ZipDeflated out_cbz
             ((fun f => (f, default [] (dir !! f))) <$> files)).

(** The candidates [main] hands to the sort (lines 235 to 241). *)
Definition candidates (args : Args) (html : str) : result (list str) :=
  img_urls ←! extract_image_urls_from_html (arg_url args) html;
  let img_urls :=
    if arg_no_ext_filter args then img_urls
    else filter (fun u => is_probably_image_url u = true) img_urls in
  Ok (if (0 <? arg_max_images args)%Z
      then take (Z.to_nat (arg_max_images args)) img_urls else img_urls).

(** Step 4 of [main]; the archive is named relative to the current
    directory ([os.path.abspath] is left out). *)
Definition package (args : Args) (dir : Dir) : Outcome :=
  let cbz :=
    match make_cbz_zip dir (arg_output args ++ py ".cbz") with
    | Ok a => Exit 0 (Some a)
    | Raise e => Uncaught e
    end in
  match find_rar_executable (arg_rar args) with
  | Some rar_cmd =>
      match make_cbr_with_rar rar_cmd dir (arg_output args ++ py ".cbr") with
      | Ok a => Exit 0 (Some a)
      | Raise _ => cbz
      end
  | None => cbz
  end.

Definition main (args : Args) : Outcome :=
  let fetched :=
    if arg_playwright args then fetch_rendered w (arg_url args)
    else fetch_plain w (arg_url args) in
  match fetched with
  | None => Exit 2 None
  | Some html =>
      match candidates args html with
      | Raise e => Uncaught e
      | Ok img_urls =>
          if bool_decide (img_urls = []) then Exit 3 None
          else
            match sorted_natural img_urls with
            | Raise e => Uncaught e
            | Ok img_urls =>
                let st := download_all img_urls in
                if bool_decide (ok_count st = 0%nat) then Exit 4 None
                else package args (images_dir st)
            end
      end
  end.

End pipeline.

(** ** A concrete runtime: the Latin-1 block and one page

    The examples below are evaluated with the runtime restricted to the
    strings it is needed on: the character properties and the case mapping
    of the code points below 256 (other code points have none), strings
    without character references for [html.unescape], http(s) URLs without
    parameters or dot segments for [urllib.parse], whose host has no square
    bracket or, to be rejected, one only, and one page whose parse and scan
    are given. *)
Module Latin1.

Definition decimal (c : N) : option N :=
  if (48 <=? c) && (c <=? 57) then Some (c - 48) else None.

(** SUPERSCRIPT TWO, THREE and ONE *)
Definition other_digit (c : N) : bool := (c =? 178) || (c =? 179) || (c =? 185).

Definition lower_char (c : N) : N :=
  if ((65 <=? c) && (c <=? 90))
     || ((192 <=? c) && (c <=? 222) && negb (c =? 215))
  then c + 32 else c.

Definition lower (s : str) : str := lower_char <$> s.

(** The letters of [IMG_EXT_RE] match themselves in either case; [i] also
    matches U+0130 and U+0131. *)
Definition ignorecase_eq (p c : N) : bool :=
  (lower_char p =? lower_char c)
  || ((p =? 105) && ((c =? 304) || (c =? 305))).

Definition after_scheme (u : str) : option (str * str) :=
  if is_prefix_of (py "https://") u then Some (py "https://", drop 8 u)
  else if is_prefix_of (py "http://") u then Some (py "http://", drop 7 u)
  else None.

Definition not_slash (c : N) : bool := negb (c =? 47).

(** scheme and host of an http(s) URL, and what follows the host *)
Definition origin_rest (u : str) : str * str :=
  match after_scheme u with
  | Some (scheme, r) => (scheme ++ take_while not_slash r, drop_while not_slash r)
  | None => ([], u)
  end.

Definition path_of (u : str) : str :=
  take_while (fun c => negb ((c =? 63) || (c =? 35))) (origin_rest u).2.

(** what precedes the last slash of a path, that slash included *)
Definition dirname_slash (p : str) : str :=
  reverse (drop_while not_slash (reverse p)).

(** the host of an http(s) URL, with the port and the user if any *)
Definition netloc (u : str) : str :=
  match after_scheme u with
  | Some (_, r) =>
      take_while (fun c => negb ((c =? 47) || (c =? 63) || (c =? 35))) r
  | None => []
  end.

(** [urlsplit] raises [ValueError] on a host with an opening square
    bracket and no closing one, or the reverse. *)
Definition bad_netloc (n : str) : bool :=
  xorb (bool_decide (91 ∈ n)) (bool_decide (93 ∈ n)).

Definition join (base u : str) : result str :=
  if bad_netloc (netloc base) || bad_netloc (netloc u) then Raise ValueError
  else
    match after_scheme u with
    | Some _ => Ok u
    | None =>
        if startswith1 47 u then Ok ((origin_rest base).1 ++ u)
        else
          let d := dirname_slash (path_of base) in
          Ok ((origin_rest base).1
              ++ (if bool_decide (d = []) then py "/" else d) ++ u)
    end.

(** [posixpath.splitext(p)[1]]: from the last dot of the last component,
    unless only dots precede it there. *)
Definition splitext_ext (p : str) : str :=
  let name := reverse (take_while not_slash (reverse p)) in
  let stem := drop_while (fun c => c =? 46) name in
  let rext := take_while (fun c => negb (c =? 46)) (reverse stem) in
  if (length rext <? length stem)%nat then 46 :: reverse rext else [].

Definition path_ext (u : str) : str := splitext_ext (path_of u).

Definition runtime (doc : Soup) (scan : list str) : Runtime := {|
  unicode_decimal := decimal;
  unicode_other_digit := other_digit;
  str_lower := lower;
  re_ignorecase_eq := ignorecase_eq;
  html_unescape := fun s => s;
  urljoin := join;
  url_path_ext := path_ext;
  BeautifulSoup := fun _ => doc;
  raw_url_scan := fun _ => scan;
  int_max_str_digits := 4300;
|}.

Definition no_doc : Soup := {| soup_imgs := []; soup_anchors := [] |}.

(** The runtime when no page is read. *)
Definition plain : Runtime := runtime no_doc [].

(** An [img] element with a [src] attribute only. *)
Definition img_src (v : str) : gmap str str := {[ py "src" := v ]}.

End Latin1.

(** ** Notions the statements use *)

Section notions.
Context `{RT : Runtime}.

(** A piece of text between two runs of decimal digits. *)
Definition text_piece (t : str) : Prop := Forall (fun c => is_decimal c = false) t.

(** A run of decimal digits. *)
Definition digit_run (d : str) : Prop :=
  d ≠ [] ∧ Forall (fun c => is_decimal c = true) d.

(** The shape of the list [re.split] returns: text, run, text, ..., text,
    where the text between two runs is not empty (the runs are maximal). *)
Inductive split_shape : list str → Prop :=
  | shape_last t : text_piece t → split_shape [t]
  | shape_cons t d rest :
      text_piece t → digit_run d → split_shape rest →
      (∀ t' d' rest', rest = t' :: d' :: rest' → t' ≠ []) →
      split_shape (t :: d :: rest).

(** The shape of a key: a string, an integer, a string, ..., a string. *)
Inductive key_shape : list key_elem → Prop :=
  | key_last t : key_shape [KStr t]
  | key_cons t n rest : key_shape rest → key_shape (KStr t :: KInt n :: rest).

Definition ends_without_digit (p : str) : Prop :=
  ∀ c, last p = Some c → is_decimal c = false.
Definition starts_without_digit (q : str) : Prop :=
  ∀ c, head q = Some c → is_decimal c = false.

(** [a] is put before [b] by the order on their keys. *)
Definition key_le (ka kb : list key_elem) : Prop := key_lt kb ka = Ok false.

(** The absolute URL a collected raw value contributes to the output of the
    extractor: none when the cleaned value is empty. *)
Definition normalize (base_url u : str) : option (result str) :=
  let c := clean_url u in
  if bool_decide (c = []) then None else Some (urljoin base_url c).

(** The absolute URLs in the order of discovery, repetitions included, or
    the exception of the first resolution that raises. *)
Definition discovered (base_url html : str) : result (list str) :=
  rmap id (omap (normalize base_url) (collected html)).

(** [l.index(a)]: the position of the first occurrence. *)
Fixpoint first_index (a : str) (l : list str) : option nat :=
  match l with
  | [] => None
  | x :: l' => if bool_decide (x = a) then Some 0%nat else S <$> first_index a l'
  end.

Definition keep_unseen (acc : list str) (a : str) : list str :=
  if bool_decide (a ∈ acc) then acc else acc ++ [a].

(** The first occurrences of a list, in order. *)
Definition first_occurrences (l : list str) : list str := foldl keep_unseen [] l.

(** One layer of surrounding matching quotes taken off: a double or a
    single quote, a middle, and the same quote again give the middle;
    any other string is unchanged. *)
Definition unquote (s : str) : str :=
  match s with
  | q :: r =>
      match reverse r with
      | q' :: m =>
          if ((q =? QUOT) || (q =? APOS)) && (q' =? q) then reverse m else s
      | [] => s
      end
  | [] => []
  end.

(** A string that is one quote character and nothing else. *)
Definition lone_quote (s : str) : bool :=
  bool_decide (s = [QUOT]) || bool_decide (s = [APOS]).

(** The normalisation in four steps: unescape, trim, take the quotes off,
    resolve against the base URL. *)
Definition four_steps (base_url raw : str) : result str :=
  urljoin base_url (unquote (strip (html_unescape raw))).

(** [a] is not after [b] in the natural order. *)
Definition natural_le (a b : str) : Prop :=
  ∃ ka kb, natural_key a = Ok ka ∧ natural_key b = Ok kb ∧ key_le ka kb.

(** An item of the list being sorted carries the key of its string. *)
Definition keyed (x : list key_elem * str) : Prop := natural_key x.2 = Ok x.1.

(** [f] is the file of a download of [items] that succeeded. *)
Definition file_of_success (w : World) (items : list (nat * str)) (f : str)
    : Prop :=
  ∃ idx u, (idx, u) ∈ items ∧ f = fname_of idx u
    ∧ ok (download_one w ∅ u f).1 = true.

(** The download of the item of [enumerate] succeeds. *)
Definition download_ok (w : World) (item : nat * str) : bool :=
  ok (download_one w ∅ item.2 (fname_of item.1 item.2)).1.

(** What [main] fetches. *)
Definition fetched (w : World) (args : Args) : option str :=
  if arg_playwright args then fetch_rendered w (arg_url args)
  else fetch_plain w (arg_url args).

(** The same world with another packer. *)
Definition with_packer (w : World) (which' : str → bool)
    (run_rar' : list str → bool) : World :=
  {| fetch_plain := fetch_plain w;
     fetch_rendered := fetch_rendered w;
     http_get := http_get w;
     open_fails := open_fails w;
     remove_fails := remove_fails w;
     which := which';
     run_rar := run_rar';
     zip_fails := zip_fails w |}.

(** The value of a string of ASCII digits. *)
Definition ascii_digit (c : N) : Prop := 48 ≤ c ≤ 57.
Definition digits_value (s : str) : nat :=
  foldl (fun acc c => (10 * acc + N.to_nat (c - 48))%nat) 0%nat s.


(** The first whitespace-delimited field of an entry of a responsive-source
    list, if the entry has one. *)
Definition first_field (part : str) : option str := head (split_ws part).


(** [m] is the pattern [pat] in some letter case, as [re.IGNORECASE] sees it. *)
Definition matches_ignorecase (pat m : str) : Prop :=
  Forall2 (fun p c => re_ignorecase_eq p c = true) pat m.

(** What may follow the extension: nothing, a final newline, a query or a
    fragment. *)
Definition ext_terminator (r : str) : Prop :=
  r = [] ∨ r = [10] ∨ head r = Some 63 ∨ head r = Some 35.


(** A piece made of digit characters none of which is decimal. *)
Definition other_digit_piece (t : str) : Prop :=
  t ≠ [] ∧ Forall (fun c => is_decimal c = false ∧ unicode_other_digit c = true) t.

(** A run of more decimal digits than [int] converts. *)
Definition long_digit_run (t : str) : Prop :=
  digit_run t ∧ int_too_long t = true.

#[export] Instance key_elem_eq_dec : EqDecision key_elem.
Proof. solve_decision. Defined.
#[export] Instance exn_eq_dec : EqDecision exn.
Proof. solve_decision. Defined.
#[export] Instance result_eq_dec {A} `{EqDecision A} : EqDecision (result A).
Proof. solve_decision. Defined.


(** The bytes of a response. *)
Definition body (r : Response) : list Byte.byte := concat (resp_chunks r).

(** What the runtime returns as a lower-cased extension is empty or starts
    with a dot, as [os.path.splitext] promises. *)
Definition ext_dotted : Prop :=
  ∀ u, match str_lower (url_path_ext u) with
       | [] => True
       | c :: _ => c = 46
       end.

(** The ASCII digits are decimal characters, with their values, and the dot
    is not a decimal character. *)
Definition ascii_digits_decimal : Prop :=
  (∀ c, 48 ≤ c ≤ 57 → unicode_decimal c = Some (c - 48))
  ∧ unicode_decimal 46 = None.

(** The record the download of an item leaves when it fails. *)
Definition failure_of (w : World) (item : nat * str) : str * Reason :=
  (item.2, reason (download_one w ∅ item.2 (fname_of item.1 item.2)).1).


(** The name under which the download of an item is kept. *)
Definition name_of (item : nat * str) : str := fname_of item.1 item.2.

(** The archive entry of an item whose download succeeded: its file name
    and the body of its response. *)
Definition archived (w : World) (item : nat * str) : str * list Byte.byte :=
  (name_of item, default [] (body <$> http_get w item.2)).

(** The items whose download succeeds, in the order of [enumerate]. *)
Definition successes (w : World) (urls : list str) : list (nat * str) :=
  filter (fun item => download_ok w item = true) (enumerate1 urls).

End notions.

(** ** Worlds for the concrete runs *)
Module Fixture.

Definition bytes (n : nat) : list Byte.byte := replicate n Byte.x00.

(** A response that declares [ctype] and carries [n] bytes. *)
Definition response (ctype : str) (n : nat) : Response :=
  {| resp_content_type := Some ctype;
     resp_chunks := [bytes n];
     resp_stream_breaks := false |}.

(** A world whose page is fetched, without packer unless [rar] is set, in
    which files open, the packer, if any, works, and the ZIP archive can be
    written. *)
Definition world (get : str → option Response) (rm_fails : str → bool)
    (rar : bool) : World :=
  {| fetch_plain := fun _ => Some [];
     fetch_rendered := fun _ => Some [];
     http_get := get;
     open_fails := fun _ => false;
     remove_fails := rm_fails;
     which := fun _ => rar;
     run_rar := fun _ => true;
     zip_fails := fun _ => false |}.

(** The answers of the network, by URL. *)
Fixpoint serve (table : list (str * Response)) (u : str) : option Response :=
  match table with
  | [] => None
  | (k, r) :: table' => if bool_decide (k = u) then Some r else serve table' u
  end.

(** A page of [img] elements, given by their [src] attributes. *)
Definition page (srcs : list str) : Soup :=
  {| soup_imgs := Latin1.img_src <$> srcs; soup_anchors := [] |}.

(** A small image and a large one. *)
Definition two_images : list (str * Response) :=
  [(py "https://x.test/a1.png", response (py "image/png") 10);
   (py "https://x.test/a2.png", response (py "image/png") 2000)].

Definition args (no_ext_filter : bool) : Args :=
  {| arg_url := py "https://x.test/p";
     arg_output := py "comic";
     arg_max_images := 0;
     arg_no_ext_filter := no_ext_filter;
     arg_rar := None;
     arg_playwright := false |}.

(** The same arguments with [--rar]. *)
Definition args_with_rar (rar : str) : Args :=
  {| arg_url := py "https://x.test/p";
     arg_output := py "comic";
     arg_max_images := 0;
     arg_no_ext_filter := false;
     arg_rar := Some rar;
     arg_playwright := false |}.

(** The same world in which the ZIP archive cannot be written. *)
Definition zip_failing (w : World) : World :=
  {| fetch_plain := fetch_plain w;
     fetch_rendered := fetch_rendered w;
     http_get := http_get w;
     open_fails := open_fails w;
     remove_fails := remove_fails w;
     which := which w;
     run_rar := run_rar w;
     zip_fails := fun _ => true |}.

End Fixture.

(** Case analysis on every condition of a nest of conditionals. *)
Ltac case_ifs :=
  repeat (match goal with
          | |- context [if ?b then _ else _] => destruct b
          end; simpl).

(** ** Strings *)

Lemma drop_while_head {A} (p : A → bool) l x l' :
  drop_while p l = x :: l' → p x = false.
Proof.
  induction l as [|y l IH]; simpl; [done|].
  destruct (p y) eqn:Hy; [done|]. by intros [= <- _].
Qed.

(** What [strip] returns starts and ends with no whitespace. *)
Lemma strip_ends s :
  (∀ c, head (strip s) = Some c → isspace c = false)
  ∧ (∀ c, last (strip s) = Some c → isspace c = false).
Proof.
  unfold strip, rstrip, lstrip. split; intros c Hc.
  - rewrite head_reverse in Hc.
    destruct (drop_while isspace s) as [|x r] eqn:Hl; [done|].
    apply drop_while_head in Hl as Hx.
    destruct (drop_while isspace (reverse (x :: r))) as [|y r'] eqn:Hr; [done|].
    assert (last (y :: r') = Some x) as Hlast.
    { clear Hc. revert y r' Hr. rewrite reverse_cons.
      induction (reverse r) as [|z l IH]; intros y r' Hr; simpl in Hr.
      - rewrite Hx in Hr. by injection Hr as <- <-.
      - destruct (isspace z).
        + by apply IH.
        + injection Hr as <- <-. by rewrite last_cons, last_snoc. }
    congruence.
  - rewrite last_reverse in Hc.
    destruct (drop_while isspace (reverse (drop_while isspace s))) as [|y r'] eqn:Hr;
      [done|].
    injection Hc as <-. by apply drop_while_head in Hr.
Qed.

Lemma split_ws_aux_nonempty cur s :
  cur ≠ [] ∨ (∃ c, c ∈ s ∧ isspace c = false) → split_ws_aux cur s ≠ [].
Proof.
  revert cur. induction s as [|c s IH]; intros cur H; simpl.
  - destruct H as [H|(c & Hc & _)]; [|by apply elem_of_nil in Hc].
    by rewrite bool_decide_eq_false_2.
  - destruct (isspace c) eqn:Hc.
    + case_bool_decide as Hcur; [|done]. apply IH.
      destruct H as [H|(c' & Hc' & Hs)]; [done|]. right.
      apply elem_of_cons in Hc' as [->|Hc']; [congruence|eauto].
    + apply IH. by left.
Qed.

(** [part.split()[0]] in [parse_srcset] is taken of a list that has a first
    element. *)
Lemma split_ws_strip part : strip part ≠ [] → split_ws (strip part) ≠ [].
Proof.
  intros Hne. apply split_ws_aux_nonempty. right.
  destruct (strip part) as [|c r] eqn:Hs; [done|].
  exists c. split; [by left|].
  destruct (strip_ends part) as [Hhead _]. apply Hhead. by rewrite Hs.
Qed.

(** ** The natural-sort key *)

Section natural_key_facts.
Context `{RT : Runtime}.

Lemma rmap_app {A B} (f : A → result B) l1 l2 :
  rmap f (l1 ++ l2) =
  (x ←! rmap f l1; y ←! rmap f l2; Ok (x ++ y)).
Proof.
  induction l1 as [|a l1 IH]; simpl.
  - by destruct (rmap f l2).
  - destruct (f a); simpl; [|done]. rewrite IH.
    destruct (rmap f l1); simpl; [|done]. by destruct (rmap f l2).
Qed.

Lemma rmap_Ok_lookup {A B} (f : A → result B) l r i :
  rmap f l = Ok r →
  length r = length l ∧
  ∀ x, l !! i = Some x → ∃ y, r !! i = Some y ∧ f x = Ok y.
Proof.
  revert r i. induction l as [|a l IH]; intros r i; simpl.
  - intros [= <-]. split; [done|]. intros x Hx. by rewrite lookup_nil in Hx.
  - destruct (f a) as [y|] eqn:Hfa; simpl; [|done].
    destruct (rmap f l) as [ys|] eqn:Hr; simpl; [|done].
    intros [= <-]. split.
    + simpl. f_equal. by apply (IH ys 0%nat).
    + destruct i as [|i]; simpl.
      * intros x [= <-]. eauto.
      * intros x Hx. by apply (IH ys i).
Qed.

Lemma re_split_digits_nonempty s : re_split_digits s ≠ [].
Proof.
  destruct s as [|c s]; simpl; [done|].
  destruct (re_split_digits s) as [|t0 rest]; [done|].
  destruct (is_decimal c); [|done]. by destruct t0, rest.
Qed.

Lemma re_split_digits_single s : re_split_digits s = [[]] → s = [].
Proof.
  destruct s as [|c s]; simpl; [done|].
  destruct (re_split_digits s) as [|t0 rest]; [done|].
  destruct (is_decimal c); [|done]. by destruct t0, rest.
Qed.

(** [re.split] loses nothing: the pieces concatenate to the string. *)
Lemma re_split_digits_concat s : concat (re_split_digits s) = s.
Proof.
  induction s as [|c s IH]; simpl; [done|].
  destruct (re_split_digits s) as [|t0 rest] eqn:Hs.
  { by destruct (re_split_digits_nonempty s). }
  destruct (is_decimal c).
  - destruct t0 as [|x t0], rest as [|d rest']; simpl in *; by rewrite <- IH.
  - simpl in *. by rewrite <- IH.
Qed.

(** When the first text piece is empty and a run follows, the string
    starts with a decimal digit. *)
Lemma re_split_digits_head_digit s d rest :
  re_split_digits s = [] :: d :: rest → ∃ c s', s = c :: s' ∧ is_decimal c = true.
Proof.
  destruct s as [|c s]; simpl; [done|].
  destruct (re_split_digits s) as [|t0 rest0]; [done|].
  destruct (is_decimal c) eqn:Hc; [eauto|done].
Qed.

Lemma re_split_digits_shape s : split_shape (re_split_digits s).
Proof.
  induction s as [|c s IH]; simpl.
  - constructor. constructor.
  - destruct (re_split_digits s) as [|t0 rest] eqn:Hs.
    { by destruct (re_split_digits_nonempty s). }
    destruct (is_decimal c) eqn:Hc.
    + destruct t0 as [|x t0].
      * destruct rest as [|d rest'].
        -- constructor; [constructor| |done|done].
           split; [done|]. by repeat constructor.
        -- inversion IH as [|t d' r Ht [Hd1 Hd2] Hr Hmax]; subst.
           constructor; [constructor| |done|done].
           split; [done|]. by constructor.
      * constructor; [constructor| |done|].
        -- split; [done|]. by repeat constructor.
        -- by intros t' d' rest' [= <- _].
    + inversion IH as [t Ht|t d r Ht Hd Hr Hmax]; subst.
      * constructor. by constructor.
      * constructor; [|done..]. by constructor.
Qed.

(** A run glued in front of a string that does not start with a digit
    makes one more piece. *)
Lemma re_split_digits_run d q :
  digit_run d → starts_without_digit q →
  re_split_digits (d ++ q) = [] :: d :: re_split_digits q.
Proof.
  intros [Hne Hd] Hq. induction d as [|c d IH]; [done|].
  apply Forall_cons in Hd as [Hc Hd]. simpl. rewrite Hc.
  destruct d as [|c' d].
  - simpl. destruct (re_split_digits q) as [|t0 rest] eqn:Hs.
    { by destruct (re_split_digits_nonempty q). }
    destruct t0 as [|x t0]; [|done]. destruct rest as [|d' rest']; [done|].
    apply re_split_digits_head_digit in Hs as (c0 & s' & -> & Hc0).
    by rewrite (Hq c0) in Hc0.
  - by rewrite IH.
Qed.

(** A string that does not end with a digit, in front of one that starts
    with a run: the pieces of both, the empty first piece of the second
    left out. *)
Lemma re_split_digits_app p s d rest :
  ends_without_digit p → re_split_digits s = [] :: d :: rest →
  re_split_digits (p ++ s) = re_split_digits p ++ d :: rest.
Proof.
  intros Hp Hs. induction p as [|c p IH]; [done|]. simpl.
  destruct p as [|c' p].
  - simpl. rewrite Hs. rewrite (Hp c); [done|]. done.
  - rewrite IH; [|intros x Hx; apply Hp; by rewrite last_cons_cons].
    destruct (re_split_digits (c' :: p)) as [|t0 rest0] eqn:Hs'.
    { by destruct (re_split_digits_nonempty (c' :: p)). }
    simpl. destruct (is_decimal c); [|done].
    destruct t0 as [|x t0]; [|done].
    destruct rest0 as [|d0 rest0]; [|done].
    by apply re_split_digits_single in Hs'.
Qed.

(** [re.split] around an embedded run. *)
Lemma re_split_digits_embedded p d q :
  ends_without_digit p → digit_run d → starts_without_digit q →
  re_split_digits (p ++ d ++ q) = re_split_digits p ++ d :: re_split_digits q.
Proof.
  intros Hp Hd Hq. apply re_split_digits_app; [done|].
  by apply re_split_digits_run.
Qed.

Lemma int_digits_Ok d acc n :
  int_digits acc d = Ok n → Forall (fun c => is_decimal c = true) d.
Proof.
  revert acc. induction d as [|c d IH]; intros acc; simpl; [by constructor|].
  destruct (unicode_decimal c) eqn:Hc; [|done].
  intros H. constructor; [unfold is_decimal; by rewrite Hc | by eapply IH].
Qed.

Lemma int_digits_run d acc :
  Forall (fun c => is_decimal c = true) d → ∃ n, int_digits acc d = Ok n.
Proof.
  revert acc. induction d as [|c d IH]; intros acc Hd; simpl; [eauto|].
  apply Forall_cons in Hd as [Hc Hd]. unfold is_decimal in Hc.
  destruct (unicode_decimal c); [|done]. by apply IH.
Qed.

(** What [int] converts is a run of decimal digits. *)
Lemma int_Ok_run d n : int d = Ok n → digit_run d.
Proof.
  unfold int. destruct (int_too_long d); [done|].
  destruct d as [|c d]; [done|]. intros Hn. split; [done|].
  by eapply int_digits_Ok.
Qed.

(** [int] accepts exactly the runs of decimal digits that are not longer
    than the cap. *)
Lemma int_Ok_digit_run d :
  (∃ n, int d = Ok n) ↔ digit_run d ∧ int_too_long d = false.
Proof.
  split.
  - intros [n Hn]. split; [by eapply int_Ok_run|].
    unfold int in Hn. by destruct (int_too_long d).
  - intros [[Hne Hd] Hlen]. unfold int. rewrite Hlen.
    destruct d as [|c d]; [done|]. by apply int_digits_run.
Qed.

Lemma int_too_long_raises d : int_too_long d = true → int d = Raise ValueError.
Proof. intros H. unfold int. by rewrite H. Qed.

Lemma isdigit_digit_run d : digit_run d → isdigit d = true.
Proof.
  intros [Hne Hd]. destruct d as [|c d]; [done|]. unfold isdigit.
  apply forallb_forall. intros x Hx.
  rewrite Forall_forall in Hd. rewrite Hd; [done|]. by apply list_elem_of_In.
Qed.

Lemma key_of_token_run d n : int d = Ok n → key_of_token d = Ok (KInt n).
Proof.
  intros Hn. unfold key_of_token.
  rewrite isdigit_digit_run; [|by eapply int_Ok_run]. by rewrite Hn.
Qed.

(** A run of decimal digits becomes its value, unless it is longer than
    the cap, when [int] raises. *)
Lemma key_of_token_digit_run d :
  digit_run d →
  (int_too_long d = false ∧ ∃ n, int d = Ok n ∧ key_of_token d = Ok (KInt n))
  ∨ (int_too_long d = true ∧ key_of_token d = Raise ValueError).
Proof.
  intros Hd. destruct (int_too_long d) eqn:Hlen.
  - right. split; [done|]. unfold key_of_token.
    by rewrite (isdigit_digit_run d Hd), (int_too_long_raises d Hlen).
  - left. split; [done|]. destruct (proj2 (int_Ok_digit_run d)) as [n Hn]; [done|].
    exists n. split; [done|]. by apply key_of_token_run.
Qed.

(** A text piece becomes its lower-cased string; a piece made of digit
    characters none of which is decimal makes [int] raise. *)
Lemma key_of_token_text t :
  text_piece t →
  (isdigit t = false ∧ key_of_token t = Ok (KStr (str_lower t)))
  ∨ (isdigit t = true ∧ key_of_token t = Raise ValueError).
Proof.
  intros Ht. unfold key_of_token. destruct (isdigit t) eqn:Hd; [right|by left].
  split; [done|]. unfold int. destruct (int_too_long t); [done|].
  destruct t as [|c t]; [done|].
  apply Forall_cons in Ht as [Hc _]. unfold is_decimal in Hc. simpl.
  by destruct (unicode_decimal c).
Qed.

Lemma rmap_key_of_token_shape l k :
  split_shape l → rmap key_of_token l = Ok k → key_shape k.
Proof.
  intros Hl. revert k.
  induction Hl as [t Ht|t d rest Ht Hd Hrest IH _]; intros k; simpl.
  - destruct (key_of_token_text t Ht) as [[_ ->]|[_ ->]]; simpl; [|done].
    intros [= <-]. constructor.
  - destruct (key_of_token_text t Ht) as [[_ ->]|[_ ->]]; simpl; [|done].
    destruct (key_of_token_digit_run d Hd) as [(_ & n & _ & ->)|[_ ->]]; simpl;
      [|done].
    destruct (rmap key_of_token rest) as [kr|]; simpl; [|done].
    intros [= <-]. constructor. by apply IH.
Qed.

(** Whenever the key is computed, it alternates strings and integers. *)
Lemma natural_key_shape s k : natural_key s = Ok k → key_shape k.
Proof. apply rmap_key_of_token_shape, re_split_digits_shape. Qed.

Lemma key_shape_lookup k i e :
  key_shape k → k !! i = Some e →
  if Nat.even i then ∃ t, e = KStr t else ∃ n, e = KInt n.
Proof.
  intros Hk. revert i. induction Hk as [t|t n rest Hrest IH]; intros i.
  - destruct i as [|i]; simpl; [|by rewrite lookup_nil]. intros [= <-]. eauto.
  - destruct i as [|[|i]]; simpl.
    + intros [= <-]. eauto.
    + intros [= <-]. eauto.
    + apply IH.
Qed.

(** The only exception [natural_key] can raise is [ValueError]. *)
Lemma rmap_key_of_token_exn l e :
  split_shape l → rmap key_of_token l = Raise e → e = ValueError.
Proof.
  intros Hl. induction Hl as [t Ht|t d rest Ht Hd Hrest IH _]; simpl.
  - destruct (key_of_token_text t Ht) as [[_ ->]|[_ ->]]; simpl; congruence.
  - destruct (key_of_token_text t Ht) as [[_ ->]|[_ ->]]; simpl; [|congruence].
    destruct (key_of_token_digit_run d Hd) as [(_ & n & _ & ->)|[_ ->]]; simpl;
      [|congruence].
    destruct (rmap key_of_token rest) as [kr|]; simpl; [done|].
    intros [= <-]. by apply IH.
Qed.

(** The key is computed for every string none of whose characters is a
    digit character without being decimal, and none of whose runs of
    decimal digits is longer than the cap. *)
Lemma natural_key_total s :
  Forall (fun c => unicode_other_digit c = false) s →
  Forall (fun t => int_too_long t = false) (re_split_digits s) →
  ∃ k, natural_key s = Ok k ∧ key_shape k.
Proof.
  intros Hs Hlen. rewrite <- (re_split_digits_concat s) in Hs.
  apply Forall_concat in Hs. unfold natural_key.
  assert (∃ k, rmap key_of_token (re_split_digits s) = Ok k) as [k Hk].
  { induction (re_split_digits_shape s) as [t Ht|t d rest Ht Hd Hrest IH _];
      simpl.
    - apply Forall_cons in Hs as [Hother _].
      destruct (key_of_token_text t Ht) as [[_ ->]|[Hdig _]]; simpl; [eauto|].
      destruct t as [|c t]; [done|]. simpl in Hdig.
      apply Forall_cons in Ht as [Hc _]. apply Forall_cons in Hother as [Hc' _].
      by rewrite Hc, Hc' in Hdig.
    - apply Forall_cons in Hs as [Hother Hs]. apply Forall_cons in Hs as [_ Hs].
      apply Forall_cons in Hlen as [_ Hlen]. apply Forall_cons in Hlen as [Hdl Hlen].
      destruct (IH Hs Hlen) as [kr Hkr].
      destruct (key_of_token_digit_run d Hd) as [(_ & n & _ & ->)|[Hbad _]];
        [|congruence].
      destruct (key_of_token_text t Ht) as [[_ ->]|[Hdig _]]; simpl.
      + rewrite Hkr. simpl. eauto.
      + destruct t as [|c t]; [done|]. simpl in Hdig.
        apply Forall_cons in Ht as [Hc _]. apply Forall_cons in Hother as [Hc' _].
        by rewrite Hc, Hc' in Hdig. }
  exists k. split; [done|]. by eapply natural_key_shape.
Qed.

(** *** The order on keys *)

Lemma str_lt_irrefl a : str_lt a a = false.
Proof.
  induction a as [|x a IH]; simpl; [done|].
  rewrite N.ltb_irrefl, N.eqb_refl, IH. done.
Qed.

Lemma str_lt_asym a b : str_lt a b = true → str_lt b a = false.
Proof.
  revert b. induction a as [|x a IH]; intros [|y b]; simpl; try done.
  intros H. apply orb_true_iff in H as [H|H].
  - apply N.ltb_lt in H.
    apply orb_false_iff. split; [apply N.ltb_ge; lia|].
    apply andb_false_iff. left. apply N.eqb_neq. lia.
  - apply andb_true_iff in H as [Hxy H]. apply N.eqb_eq in Hxy as ->.
    rewrite N.ltb_irrefl, N.eqb_refl. simpl. by apply IH.
Qed.

Lemma elem_eqb_eq x y : elem_eqb x y = true ↔ x = y.
Proof.
  destruct x as [a|a], y as [b|b]; simpl; try (split; [done|congruence]).
  - rewrite N.eqb_eq. split; congruence.
  - rewrite bool_decide_eq_true. split; congruence.
Qed.

Lemma elem_eqb_refl x : elem_eqb x x = true.
Proof. by apply elem_eqb_eq. Qed.

Lemma elem_eqb_ne x y : x ≠ y → elem_eqb x y = false.
Proof.
  intros Hne. destruct (elem_eqb x y) eqn:H; [|done]. by apply elem_eqb_eq in H.
Qed.

Lemma elem_eqb_sym x y : elem_eqb x y = elem_eqb y x.
Proof.
  destruct (elem_eqb y x) eqn:H.
  - apply elem_eqb_eq in H as ->. apply elem_eqb_refl.
  - apply elem_eqb_ne. intros ->. by rewrite elem_eqb_refl in H.
Qed.

Lemma key_lt_app_common k r1 r2 : key_lt (k ++ r1) (k ++ r2) = key_lt r1 r2.
Proof. induction k as [|x k IH]; simpl; [done|]. by rewrite elem_eqb_refl. Qed.

Lemma key_lt_irrefl k : key_lt k k = Ok false.
Proof. induction k as [|x k IH]; simpl; [done|]. by rewrite elem_eqb_refl. Qed.

(** The comparison is decided by the first position where the keys differ. *)
Lemma key_lt_first_difference ka kb i x y :
  take i ka = take i kb → ka !! i = Some x → kb !! i = Some y → x ≠ y →
  key_lt ka kb = elem_lt x y.
Proof.
  intros Htake Hx Hy Hne.
  rewrite <- (take_drop_middle ka i x Hx), <- (take_drop_middle kb i y Hy).
  rewrite Htake, key_lt_app_common. simpl. by rewrite elem_eqb_ne.
Qed.

(** Two keys of the alternating shape are compared without [TypeError]. *)
Lemma key_lt_shape k1 k2 :
  key_shape k1 → key_shape k2 → ∃ b, key_lt k1 k2 = Ok b.
Proof.
  intros H1. revert k2. induction H1 as [t|t n rest Hrest IH]; intros k2 H2.
  - destruct H2 as [t2|t2 n2 rest2 H2]; simpl.
    + destruct (bool_decide (t = t2)); eauto.
    + destruct (bool_decide (t = t2)); eauto.
  - destruct H2 as [t2|t2 n2 rest2 H2]; simpl.
    + destruct (bool_decide (t = t2)); eauto.
    + destruct (bool_decide (t = t2)); [|eauto].
      destruct (n =? n2); [|eauto]. by apply IH.
Qed.

Lemma key_lt_asym k1 k2 : key_lt k1 k2 = Ok true → key_lt k2 k1 = Ok false.
Proof.
  revert k2. induction k1 as [|x k1 IH]; intros [|y k2]; simpl; try done.
  rewrite (elem_eqb_sym y x). destruct (elem_eqb x y); [by apply IH|].
  destruct x as [a|a], y as [b|b]; simpl; try done.
  - intros [= H]. f_equal. apply N.ltb_lt in H. apply N.ltb_ge. lia.
  - intros [= H]. f_equal. by apply str_lt_asym.
Qed.

End natural_key_facts.

Section natural_order.
Context `{RT : Runtime}.

Lemma str_lt_trans a b c : str_lt a b = true → str_lt b c = true → str_lt a c = true.
Proof.
  revert b c. induction a as [|x a IH]; intros [|y b] [|z c]; simpl; try done.
  rewrite !orb_true_iff, !andb_true_iff, !N.ltb_lt, !N.eqb_eq.
  intros [H1|[-> H1]] [H2|[-> H2]]; [left; lia|by left|by left|right; eauto].
Qed.

Lemma str_lt_trichotomy a b : str_lt a b = true ∨ a = b ∨ str_lt b a = true.
Proof.
  revert b. induction a as [|x a IH]; intros [|y b]; simpl; auto.
  rewrite !orb_true_iff, !andb_true_iff, !N.ltb_lt, !N.eqb_eq.
  destruct (N.lt_trichotomy x y) as [H|[->|H]]; [by left; left| |by right; right; left].
  destruct (IH b) as [H|[->|H]]; auto.
Qed.

Lemma elem_lt_trans x y z :
  elem_lt x y = Ok true → elem_lt y z = Ok true → elem_lt x z = Ok true.
Proof.
  destruct x as [a|a], y as [b|b], z as [c|c]; simpl; try done.
  - intros [= H1] [= H2]. f_equal. apply N.ltb_lt in H1, H2. apply N.ltb_lt. lia.
  - intros [= H1] [= H2]. f_equal. by eapply str_lt_trans.
Qed.

Lemma elem_lt_irrefl x : elem_lt x x ≠ Ok true.
Proof.
  destruct x as [a|a]; simpl; intros [= H].
  - by rewrite N.ltb_irrefl in H.
  - by rewrite str_lt_irrefl in H.
Qed.

Lemma key_lt_trans a b c :
  key_lt a b = Ok true → key_lt b c = Ok true → key_lt a c = Ok true.
Proof.
  revert b c. induction a as [|x a IH]; intros [|y b] [|z c]; simpl; try done.
  destruct (elem_eqb x y) eqn:Hxy.
  - apply elem_eqb_eq in Hxy as ->. destruct (elem_eqb y z); [apply IH|done].
  - destruct (elem_eqb y z) eqn:Hyz.
    + apply elem_eqb_eq in Hyz as ->. by rewrite Hxy.
    + intros H1 H2. pose proof (elem_lt_trans _ _ _ H1 H2) as H3.
      rewrite elem_eqb_ne; [done|]. intros ->. by apply elem_lt_irrefl in H3.
Qed.

(** Keys of the alternating shape are totally ordered. *)
Lemma key_trichotomy a b :
  key_shape a → key_shape b →
  key_lt a b = Ok true ∨ a = b ∨ key_lt b a = Ok true.
Proof.
  intros Ha. revert b. induction Ha as [t|t n rest Hrest IH]; intros b Hb;
    destruct Hb as [t2|t2 n2 rest2 Hrest2]; simpl.
  - destruct (str_lt_trichotomy t t2) as [H|[->|H]].
    + left. case_bool_decide; [subst; by rewrite str_lt_irrefl in H|by rewrite H].
    + by right; left.
    + right; right. case_bool_decide; [subst; by rewrite str_lt_irrefl in H|by rewrite H].
  - destruct (str_lt_trichotomy t t2) as [H|[->|H]].
    + left. case_bool_decide; [done|by rewrite H].
    + left. by rewrite bool_decide_eq_true_2.
    + right; right. case_bool_decide; [subst; by rewrite str_lt_irrefl in H|by rewrite H].
  - destruct (str_lt_trichotomy t t2) as [H|[->|H]].
    + left. case_bool_decide; [subst; by rewrite str_lt_irrefl in H|by rewrite H].
    + right; right. by rewrite bool_decide_eq_true_2.
    + right; right. case_bool_decide; [done|by rewrite H].
  - destruct (str_lt_trichotomy t t2) as [H|[->|H]].
    + left. case_bool_decide; [subst; by rewrite str_lt_irrefl in H|by rewrite H].
    + rewrite !bool_decide_eq_true_2 by done.
      destruct (N.lt_trichotomy n n2) as [H|[->|H]].
      * left. replace (n =? n2) with false by (symmetry; apply N.eqb_neq; lia).
        f_equal. apply N.ltb_lt. lia.
      * rewrite N.eqb_refl. destruct (IH rest2 Hrest2) as [H|[->|H]]; auto.
      * right; right. replace (n2 =? n) with false by (symmetry; apply N.eqb_neq; lia).
        f_equal. apply N.ltb_lt. lia.
    + right; right. case_bool_decide; [subst; by rewrite str_lt_irrefl in H|by rewrite H].
Qed.

Lemma key_le_trans a b c :
  key_shape a → key_shape b → key_shape c →
  key_le a b → key_le b c → key_le a c.
Proof.
  unfold key_le. intros Ha Hb Hc Hab Hbc.
  destruct (key_lt_shape c a Hc Ha) as [[] Hca]; [|done].
  destruct (key_trichotomy a b Ha Hb) as [H|[->|H]]; [|congruence|congruence].
  pose proof (key_lt_trans _ _ _ Hca H). congruence.
Qed.

Lemma insert_by_key_spec (x : list key_elem * str) r :
  key_shape x.1 → Forall (fun y => key_shape y.1) r →
  StronglySorted (fun y z => key_le y.1 z.1) r →
  ∃ r', insert_by_key x r = Ok r' ∧ r' ≡ₚ x :: r
    ∧ StronglySorted (fun y z => key_le y.1 z.1) r'.
Proof.
  intros Hx. induction r as [|y r IH]; intros Hr Hs; simpl.
  - eexists. split; [done|]. split; [done|]. repeat constructor.
  - apply Forall_cons in Hr as [Hy Hr]. apply StronglySorted_cons in Hs as [Hyr Hs].
    destruct (key_lt_shape y.1 x.1 Hy Hx) as [[] Hlt]; rewrite Hlt; simpl.
    + destruct (IH Hr Hs) as (r' & -> & Hp & Hs'). simpl.
      eexists. split; [done|]. split.
      * rewrite Hp. apply perm_swap.
      * apply StronglySorted_cons. split; [|done]. rewrite Hp.
        constructor; [|done]. by apply key_lt_asym.
    + eexists. split; [done|]. split; [done|].
      apply StronglySorted_cons. split; [|by apply StronglySorted_cons].
      constructor; [done|].
      rewrite Forall_forall in Hyr, Hr |- *. intros z Hz.
      apply (key_le_trans _ y.1); auto.
Qed.

Lemma sort_by_key_spec (l : list (list key_elem * str)) :
  Forall (fun y => key_shape y.1) l →
  ∃ r, sort_by_key l = Ok r ∧ r ≡ₚ l
    ∧ StronglySorted (fun y z => key_le y.1 z.1) r.
Proof.
  induction l as [|x l IH]; intros Hl; simpl.
  - eexists. split; [done|]. split; [done|]. constructor.
  - apply Forall_cons in Hl as [Hx Hl]. destruct (IH Hl) as (r & -> & Hp & Hs).
    simpl. destruct (insert_by_key_spec x r Hx) as (r' & Hr' & Hp' & Hs');
      [by rewrite Hp|done|].
    exists r'. split; [done|]. split; [|done]. by rewrite Hp', Hp.
Qed.

Lemma rmap_natural_key_zip l keys :
  rmap natural_key l = Ok keys →
  Forall keyed (zip keys l) ∧ (zip keys l).*2 = l.
Proof.
  revert keys. induction l as [|a l IH]; intros keys; simpl.
  - intros [= <-]. split; [constructor|done].
  - destruct (natural_key a) as [k|] eqn:Hk; simpl; [|done].
    destruct (rmap natural_key l) as [ks|]; simpl; [|done].
    intros [= <-]. destruct (IH ks eq_refl) as [H1 H2]. split.
    + by constructor.
    + change ((zip (k :: ks) (a :: l)).*2) with (a :: (zip ks l).*2).
      by rewrite H2.
Qed.

(** What [sorted] returns is the list reordered, no string of it after a
    later one in the natural order. *)
Lemma sorted_natural_Ok l r :
  sorted_natural l = Ok r → r ≡ₚ l ∧ StronglySorted natural_le r.
Proof.
  unfold sorted_natural.
  destruct (rmap natural_key l) as [keys|] eqn:Hkeys; simpl; [|done].
  destruct (rmap_natural_key_zip l keys Hkeys) as [Hkeyed Hsnd].
  destruct (sort_by_key_spec (zip keys l)) as (r' & -> & Hp & Hs).
  { eapply Forall_impl; [exact Hkeyed|]. intros x Hx. by eapply natural_key_shape. }
  simpl. intros [= <-]. split; [by rewrite Hp, Hsnd|].
  assert (Forall keyed r') as Hk' by (by rewrite Hp).
  clear Hp. induction Hs as [|x r' Hs IH Hall]; simpl; [constructor|].
  apply Forall_cons in Hk' as [Hx Hk']. constructor; [by apply IH|].
  apply Forall_fmap. rewrite Forall_forall in Hall, Hk' |- *.
  intros y Hy. exists x.1, y.1. split; [done|]. split; [by apply Hk'|by apply Hall].
Qed.

(** The sort returns as soon as every key is computed. *)
Lemma sorted_natural_total l :
  Forall (fun a => ∃ k, natural_key a = Ok k) l → ∃ r, sorted_natural l = Ok r.
Proof.
  intros Hl. unfold sorted_natural.
  assert (∃ keys, rmap natural_key l = Ok keys) as [keys Hkeys].
  { induction Hl as [|a l [k Hk] _ [ks IH]]; simpl; [eauto|].
    rewrite Hk, IH. simpl. eauto. }
  rewrite Hkeys. simpl.
  destruct (rmap_natural_key_zip l keys Hkeys) as [Hkeyed _].
  destruct (sort_by_key_spec (zip keys l)) as (r' & -> & _ & _); simpl; [|eauto].
  eapply Forall_impl; [exact Hkeyed|]. intros x Hx. by eapply natural_key_shape.
Qed.

Lemma sorted_natural_pair a b ka kb :
  natural_key a = Ok ka → natural_key b = Ok kb →
  key_lt ka kb = Ok true →
  sorted_natural [a; b] = Ok [a; b] ∧ sorted_natural [b; a] = Ok [a; b].
Proof.
  intros Ha Hb Hlt. pose proof (key_lt_asym _ _ Hlt) as Hgt.
  unfold sorted_natural. simpl. rewrite Ha, Hb. simpl.
  rewrite Hlt, Hgt. done.
Qed.

(** C2.  Two strings that differ only in one embedded run of decimal
    digits (the run is maximal: the text before it does not end with a
    digit, the text after it does not start with one), the first with the
    smaller integer value: whenever the key of the first is computed, so is
    the key of the second, the comparison of the keys puts the first
    before the second, and [sorted] returns them in that order whichever
    way round they come, whatever the number of digits of each run. *)
Theorem natural_key_embedded_integer p q d1 d2 n1 n2 ka :
  ends_without_digit p → starts_without_digit q →
  int d1 = Ok n1 → int d2 = Ok n2 → n1 < n2 →
  natural_key (p ++ d1 ++ q) = Ok ka →
  ∃ kb, natural_key (p ++ d2 ++ q) = Ok kb
    ∧ key_lt ka kb = Ok true ∧ key_lt kb ka = Ok false
    ∧ sorted_natural [p ++ d1 ++ q; p ++ d2 ++ q]
      = Ok [p ++ d1 ++ q; p ++ d2 ++ q]
    ∧ sorted_natural [p ++ d2 ++ q; p ++ d1 ++ q]
      = Ok [p ++ d1 ++ q; p ++ d2 ++ q].
Proof.
  intros Hp Hq H1 H2 Hlt Ha.
  assert (digit_run d1) as Hd1 by (by eapply int_Ok_run).
  assert (digit_run d2) as Hd2 by (by eapply int_Ok_run).
  unfold natural_key in *.
  rewrite re_split_digits_embedded in Ha by done.
  rewrite re_split_digits_embedded by done.
  rewrite rmap_app in Ha. rewrite rmap_app.
  destruct (rmap key_of_token (re_split_digits p)) as [kp|] eqn:Hkp;
    simpl in *; [|done].
  rewrite (key_of_token_run d1 n1 H1) in Ha. rewrite (key_of_token_run d2 n2 H2).
  simpl in *.
  destruct (rmap key_of_token (re_split_digits q)) as [kq|] eqn:Hkq; simpl in *; [|done].
  injection Ha as <-.
  assert (key_lt (kp ++ KInt n1 :: kq) (kp ++ KInt n2 :: kq) = Ok true) as Hab.
  { rewrite key_lt_app_common. simpl.
    replace (n1 =? n2) with false by (symmetry; apply N.eqb_neq; lia).
    f_equal. apply N.ltb_lt. lia. }
  eexists. split; [done|]. split; [done|]. split; [by apply key_lt_asym|].
  apply (sorted_natural_pair _ _ (kp ++ KInt n1 :: kq) (kp ++ KInt n2 :: kq));
    [| |done].
  - unfold natural_key. rewrite re_split_digits_embedded by done.
    rewrite rmap_app, Hkp. simpl.
    rewrite (key_of_token_run d1 n1 H1). simpl. by rewrite Hkq.
  - unfold natural_key. rewrite re_split_digits_embedded by done.
    rewrite rmap_app, Hkp. simpl.
    rewrite (key_of_token_run d2 n2 H2). simpl. by rewrite Hkq.
Qed.

(** C3, as the code has it.  Two candidates whose keys are computed and
    first differ at position [i]: when the piece there is not a digit
    string, neither is the other candidate's, and the comparison of the
    keys is the comparison of the two pieces as strings after each is
    lower-cased; when it is a digit string, so is the other candidate's, and
    the comparison is that of their integer values. *)
Theorem natural_key_order_at_first_difference a b ka kb i sa sb :
  natural_key a = Ok ka → natural_key b = Ok kb →
  take i ka = take i kb → ka !! i ≠ kb !! i →
  re_split_digits a !! i = Some sa → re_split_digits b !! i = Some sb →
  if isdigit sa
  then ∃ n m, int sa = Ok n ∧ int sb = Ok m ∧ key_lt ka kb = Ok (n <? m)
  else isdigit sb = false
       ∧ key_lt ka kb = Ok (str_lt (str_lower sa) (str_lower sb)).
Proof.
  intros Ha Hb Htake Hne Hsa Hsb.
  pose proof (natural_key_shape _ _ Ha) as Sa.
  pose proof (natural_key_shape _ _ Hb) as Sb.
  destruct (rmap_Ok_lookup _ _ _ i Ha) as [_ Hla].
  destruct (rmap_Ok_lookup _ _ _ i Hb) as [_ Hlb].
  destruct (Hla sa Hsa) as (x & Hx & Hkx). destruct (Hlb sb Hsb) as (y & Hy & Hky).
  assert (x ≠ y) as Hxy by (intros ->; apply Hne; by rewrite Hx, Hy).
  rewrite (key_lt_first_difference ka kb i x y) by done.
  pose proof (key_shape_lookup _ _ _ Sa Hx) as Px.
  pose proof (key_shape_lookup _ _ _ Sb Hy) as Py.
  unfold key_of_token in Hkx, Hky.
  destruct (isdigit sa) eqn:Hda.
  - destruct (int sa) as [n|] eqn:Hn; simpl in Hkx; [|done]. injection Hkx as <-.
    destruct (Nat.even i); [by destruct Px|]. destruct Py as [m ->].
    destruct (isdigit sb); [|done].
    destruct (int sb) as [m'|] eqn:Hm; simpl in Hky; [|done].
    injection Hky as ->. by exists n, m.
  - injection Hkx as <-.
    destruct (Nat.even i); [|by destruct Px]. destruct Py as [t ->].
    destruct (isdigit sb).
    + destruct (int sb); simpl in Hky; done.
    + injection Hky as <-. done.
Qed.

End natural_order.

(** ** The URL extractor *)

Section extractor.
Context `{RT : Runtime}.

Lemma first_index_Some_lookup a l n :
  first_index a l = Some n → l !! n = Some a ∧ (n < length l)%nat.
Proof.
  revert n. induction l as [|x l IH]; intros n; simpl; [done|].
  case_bool_decide as Hx.
  - intros [= <-]. subst. split; [done|lia].
  - destruct (first_index a l) as [m|]; simpl; [|done].
    intros [= <-]. destruct (IH m eq_refl). split; [done|lia].
Qed.

Lemma first_index_is_Some a l : a ∈ l ↔ is_Some (first_index a l).
Proof.
  induction l as [|x l IH]; simpl.
  - split; [by intros ?%elem_of_nil|by intros [? ?]].
  - case_bool_decide as Hx.
    + subst. split; [eauto|]. intros _. by left.
    + rewrite elem_of_cons, IH. split.
      * intros [?|[m Hm]]; [congruence|]. rewrite Hm. eauto.
      * intros [m Hm]. right. destruct (first_index a l); [eauto|done].
Qed.

Lemma first_index_app_l a l k :
  a ∈ l → first_index a (l ++ k) = first_index a l.
Proof.
  induction l as [|x l IH]; simpl; [by intros ?%elem_of_nil|].
  case_bool_decide as Hx; [done|].
  intros [?|Ha]%elem_of_cons; [congruence|]. by rewrite IH.
Qed.

Lemma first_index_snoc_new a l : a ∉ l → first_index a (l ++ [a]) = Some (length l).
Proof.
  induction l as [|x l IH]; simpl.
  - intros _. by rewrite bool_decide_eq_true_2.
  - intros Ha. apply not_elem_of_cons in Ha as [Hne Ha].
    rewrite bool_decide_eq_false_2 by congruence. by rewrite IH.
Qed.

Lemma first_occurrences_snoc l a :
  first_occurrences (l ++ [a]) = keep_unseen (first_occurrences l) a.
Proof. unfold first_occurrences. by rewrite foldl_snoc. Qed.

Lemma first_occurrences_elem l a : a ∈ first_occurrences l ↔ a ∈ l.
Proof.
  induction l as [|x l IH] using rev_ind; [done|].
  rewrite first_occurrences_snoc. unfold keep_unseen.
  case_bool_decide as Hx; rewrite !elem_of_app, ?list_elem_of_singleton.
  - rewrite IH. split; [by left|]. intros [? | ->]; [done|]. by apply IH.
  - by rewrite IH.
Qed.

Lemma first_occurrences_NoDup l : NoDup (first_occurrences l).
Proof.
  induction l as [|x l IH] using rev_ind; [constructor|].
  rewrite first_occurrences_snoc. unfold keep_unseen.
  case_bool_decide as Hx; [done|].
  apply NoDup_app. split; [done|]. split; [|apply NoDup_singleton].
  intros y Hy ->%list_elem_of_singleton. done.
Qed.

(** The output lists the values by their first occurrence. *)
Lemma first_occurrences_order l i j a b :
  first_occurrences l !! i = Some a → first_occurrences l !! j = Some b →
  ∃ ia ib, first_index a l = Some ia ∧ first_index b l = Some ib
    ∧ (i < j ↔ ia < ib)%nat.
Proof.
  revert i j a b. induction l as [|x l IH] using rev_ind; intros i j a b.
  { unfold first_occurrences. simpl. by rewrite lookup_nil. }
  rewrite first_occurrences_snoc. unfold keep_unseen.
  case_bool_decide as Hx.
  - intros Ha Hb. destruct (IH i j a b Ha Hb) as (ia & ib & Hia & Hib & Hlt).
    exists ia, ib. rewrite !first_index_app_l; [done|..].
    + apply first_index_is_Some. eauto.
    + apply first_index_is_Some. eauto.
  - assert (x ∉ l) as Hxl by (by rewrite <- first_occurrences_elem).
    intros Ha Hb.
    apply lookup_snoc_Some in Ha as [[Hi Ha]|[Hi <-]];
      apply lookup_snoc_Some in Hb as [[Hj Hb]|[Hj <-]].
    + destruct (IH i j a b Ha Hb) as (ia & ib & Hia & Hib & Hlt).
      exists ia, ib. rewrite !first_index_app_l; [done|..].
      * apply first_index_is_Some. eauto.
      * apply first_index_is_Some. eauto.
    + destruct (IH i i a a Ha Ha) as (ia & _ & Hia & _ & _).
      exists ia, (length l). rewrite (first_index_app_l a), first_index_snoc_new;
        [|done|apply first_index_is_Some; eauto].
      destruct (first_index_Some_lookup _ _ _ Hia) as [_ Hlt]. split; [done|].
      split; [done|]. lia.
    + destruct (IH j j b b Hb Hb) as (ib & _ & Hib & _ & _).
      exists (length l), ib. rewrite (first_index_app_l b), first_index_snoc_new;
        [|done|apply first_index_is_Some; eauto].
      destruct (first_index_Some_lookup _ _ _ Hib) as [_ Hlt]. split; [done|].
      split; [done|]. lia.
    + exists (length l), (length l). rewrite first_index_snoc_new by done.
      split; [done|]. split; [done|]. lia.
Qed.

Lemma rmap_id_elem {A} (l : list (result A)) r a :
  rmap id l = Ok r → (a ∈ r ↔ Ok a ∈ l).
Proof.
  revert r. induction l as [|x l IH]; intros r; simpl.
  - intros [= <-]. by rewrite !elem_of_nil.
  - destruct x as [y|e]; simpl; [|done].
    destruct (rmap id l) as [ys|] eqn:Hl; simpl; [|done]. intros [= <-].
    rewrite !elem_of_cons, (IH ys eq_refl). split; intros [H|H]; auto.
    + left. congruence.
    + left. congruence.
Qed.

Lemma rmap_id_length {A} (l : list (result A)) r :
  rmap id l = Ok r → length r = length l.
Proof. intros H. by destruct (rmap_Ok_lookup id l r 0 H). Qed.

Lemma dedupe_step_normalize (base_url : str) (st : list str * gset str) u :
  dedupe_step base_url st u
  = match normalize base_url u with
    | None => Ok st
    | Some r =>
        abs_u ←! r;
        if bool_decide (abs_u ∈ st.2) then Ok st
        else Ok (st.1 ++ [abs_u], {[abs_u]} ∪ st.2)
    end.
Proof. unfold dedupe_step, normalize. by case_bool_decide. Qed.

Lemma dedupe_loop (base_url : str) (us acc : list str) (seen : gset str) :
  (∀ a, a ∈ seen ↔ a ∈ acc) →
  (st ←! rfoldl (dedupe_step base_url) (acc, seen) us; Ok st.1)
  = (found ←! rmap id (omap (normalize base_url) us);
     Ok (foldl keep_unseen acc found)).
Proof.
  revert acc seen. induction us as [|u us IH]; intros acc seen Hseen; [done|].
  cbn [rfoldl omap list_omap]. rewrite dedupe_step_normalize.
  destruct (normalize base_url u) as [[a|e]|]; cbn [rbind rmap id fst snd];
    [|done|by apply IH].
  destruct (decide (a ∈ seen)) as [Hin|Hin].
  - rewrite bool_decide_eq_true_2 by done. cbn [rbind].
    rewrite (IH acc seen Hseen).
    destruct (rmap id (omap (normalize base_url) us)); cbn [rbind foldl]; [|done].
    replace (keep_unseen acc a) with acc; [done|].
    unfold keep_unseen. by rewrite bool_decide_eq_true_2 by (by apply Hseen).
  - rewrite bool_decide_eq_false_2 by done. cbn [rbind fst snd].
    rewrite (IH (acc ++ [a]) ({[a]} ∪ seen)).
    + destruct (rmap id (omap (normalize base_url) us)); cbn [rbind foldl]; [|done].
      replace (keep_unseen acc a) with (acc ++ [a]); [done|].
      unfold keep_unseen. by rewrite bool_decide_eq_false_2 by (by rewrite <- Hseen).
    + intros x. rewrite elem_of_union, elem_of_singleton, elem_of_app,
        list_elem_of_singleton, Hseen. tauto.
Qed.

(** The extractor raises what the first resolution that raises does, and
    otherwise returns the first occurrences of the URLs discovered. *)
Lemma extract_first_occurrences base_url html :
  extract_image_urls_from_html base_url html
  = (found ←! discovered base_url html; Ok (first_occurrences found)).
Proof.
  unfold extract_image_urls_from_html, first_occurrences, discovered.
  apply dedupe_loop. intros a. by rewrite elem_of_empty, elem_of_nil.
Qed.

(** C1.  The extractor raises exactly when a resolution against the base
    URL does, and then the same exception.  Otherwise its output holds no
    URL twice, holds exactly the absolute URLs discovered, and lists them
    in the order of their first discovery; a URL discovered from an image
    tag and again by the scan of the page text is at one position only,
    which is that of its first discovery, among the values of the image
    tags. *)
Theorem extract_dedupes_first_seen base_url html :
  (∀ e, extract_image_urls_from_html base_url html = Raise e
        ↔ discovered base_url html = Raise e)
  ∧ (∀ found, discovered base_url html = Ok found →
     ∃ out, extract_image_urls_from_html base_url html = Ok out
       ∧ NoDup out
       ∧ (∀ a, a ∈ out ↔ a ∈ found)
       ∧ (∀ i j a b, out !! i = Some a → out !! j = Some b →
            ∃ ia ib, first_index a found = Some ia ∧ first_index b found = Some ib
              ∧ (i < j ↔ ia < ib)%nat)
       ∧ (∀ v c a,
            v ∈ collected_from_imgs html → c ∈ collected_from_scan html →
            normalize base_url v = Some (Ok a) →
            normalize base_url c = Some (Ok a) →
            ∃ i ia, out !! i = Some a ∧ (∀ j, out !! j = Some a → j = i)
              ∧ first_index a found = Some ia
              ∧ (ia < length (omap (normalize base_url)
                                   (collected_from_imgs html)))%nat)).
Proof.
  rewrite extract_first_occurrences. split.
  { intros e. by destruct (discovered base_url html). }
  intros found Hfound. rewrite Hfound. simpl.
  exists (first_occurrences found). split; [done|].
  split; [apply first_occurrences_NoDup|].
  split; [apply first_occurrences_elem|].
  split; [apply first_occurrences_order|].
  intros v c a Hv Hc Hnv Hnc.
  unfold discovered, collected in Hfound. rewrite omap_app, rmap_app in Hfound.
  destruct (rmap id (omap (normalize base_url) (collected_from_imgs html)))
    as [imgs|] eqn:Himgs; simpl in Hfound; [|done].
  destruct (rmap id _) as [others|] in Hfound; simpl in Hfound; [|done].
  injection Hfound as <-.
  assert (a ∈ imgs) as Ha.
  { apply (rmap_id_elem _ _ _ Himgs), list_elem_of_omap. eauto. }
  rewrite <- (rmap_id_length _ _ Himgs).
  assert (a ∈ imgs ++ others) as Hall by (apply elem_of_app; by left).
  apply first_occurrences_elem in Hall as Hout.
  apply list_elem_of_lookup in Hout as [i Hi].
  apply first_index_is_Some in Ha as [ia Hia].
  exists i, ia. split; [done|]. split.
  - intros j Hj. by eapply NoDup_lookup; [apply first_occurrences_NoDup|..].
  - rewrite first_index_app_l by (apply first_index_is_Some; eauto).
    split; [done|]. by apply first_index_Some_lookup in Hia as [_ ?].
Qed.

End extractor.

(** ** Normalisation *)

Section normalisation.
Context `{RT : Runtime}.

Lemma slice_1_m1_quoted q m q' : slice_1_m1 (q :: m ++ [q']) = m.
Proof.
  unfold slice_1_m1.
  replace (length (q :: m ++ [q']) - 2)%nat with (length m)
    by (simpl; rewrite length_app; simpl; lia).
  simpl. by rewrite drop_0, take_app_length.
Qed.

(** The test and the slice of [clean_url] take one layer of quotes off; a
    lone quote character passes the test and is sliced to nothing. *)
Lemma clean_url_quotes s :
  (if (startswith1 QUOT s && endswith1 QUOT s)
      || (startswith1 APOS s && endswith1 APOS s)
   then slice_1_m1 s else s)
  = if lone_quote s then [] else unquote s.
Proof.
  destruct s as [|q r]; [done|].
  destruct r as [|q' m _] using rev_ind.
  - unfold lone_quote, endswith1, QUOT, APOS. simpl.
    destruct (q =? 34) eqn:H1; [apply N.eqb_eq in H1 as ->; done|].
    destruct (q =? 39) eqn:H2; [apply N.eqb_eq in H2 as ->; done|].
    apply N.eqb_neq in H1, H2. simpl.
    rewrite !bool_decide_eq_false_2 by congruence. done.
  - unfold lone_quote, endswith1, unquote.
    rewrite !bool_decide_eq_false_2
      by (intros H; apply (f_equal length) in H; simpl in H;
          rewrite length_app in H; simpl in H; lia).
    rewrite reverse_snoc, reverse_involutive. simpl.
    change (q :: m ++ [q']) with ((q :: m) ++ [q']). rewrite last_snoc.
    change ((q :: m) ++ [q']) with (q :: m ++ [q']).
    rewrite slice_1_m1_quoted. unfold QUOT, APOS.
    destruct (q =? 34) eqn:H1; simpl.
    + apply N.eqb_eq in H1 as ->. destruct (q' =? 34) eqn:H3; simpl; [done|].
      destruct (q' =? 39); done.
    + destruct (q =? 39) eqn:H2; simpl.
      * apply N.eqb_eq in H2 as ->. by destruct (q' =? 39).
      * done.
Qed.

(** C4, as the code has it.  A raw value is unescaped, trimmed, relieved
    of one layer of surrounding matching quotes (a lone quote character
    becomes empty), trimmed again, dropped when nothing is left, and
    otherwise resolved against the base URL. *)
Theorem normalize_steps base_url raw :
  let s := strip (html_unescape raw) in
  let s := strip (if lone_quote s then [] else unquote s) in
  clean_url raw = s
  ∧ normalize base_url raw
    = if bool_decide (s = []) then None else Some (urljoin base_url s).
Proof.
  simpl. unfold normalize, clean_url. by rewrite clean_url_quotes.
Qed.

End normalisation.

(** ** File names *)

Section file_names.
Context `{RT : Runtime}.

Lemma digits_value_app acc s :
  foldl (fun acc c => (10 * acc + N.to_nat (c - 48))%nat) acc (replicate s 48) =
  (acc * 10 ^ s)%nat.
Proof.
  revert acc. induction s as [|s IH]; intros acc; simpl; [lia|].
  rewrite IH. simpl. lia.
Qed.

Lemma digits_value_uint d acc :
  foldl (fun acc c => (10 * acc + N.to_nat (c - 48))%nat) acc (uint_digits d)
  = Nat.of_uint_acc d acc.
Proof.
  revert acc. induction d as [|d IH|d IH|d IH|d IH|d IH|d IH|d IH|d IH|d IH|d IH];
    intros acc; simpl; [done|..]; rewrite IH, Nat.tail_mul_spec; f_equal; lia.
Qed.

Lemma uint_digits_ascii d : Forall ascii_digit (uint_digits d).
Proof.
  induction d; simpl; constructor; try done; unfold ascii_digit; lia.
Qed.

(** [format_04d] writes the index in base ten, with zeros in front up to
    four characters. *)
Lemma format_04d_spec idx :
  Forall ascii_digit (format_04d idx)
  ∧ digits_value (format_04d idx) = idx
  ∧ length (format_04d idx) = (4 `max` length (uint_digits (Nat.to_uint idx)))%nat.
Proof.
  unfold format_04d, digits_value. split; [|split].
  - apply Forall_app. split; [|apply uint_digits_ascii].
    apply Forall_replicate. unfold ascii_digit. lia.
  - rewrite foldl_app, digits_value_app, digits_value_uint. simpl.
    apply DecimalNat.Unsigned.of_to.
  - rewrite length_app, length_replicate. lia.
Qed.

(** C5, as the code has it.  The file name of the candidate at index
    [idx] is the index in base ten, padded with zeros to four digits,
    followed by the lower-cased extension of the path of the URL when that
    is not empty and has at most six characters, the dot included, and by
    [.jpg] otherwise. *)
Theorem fname_of_index_and_extension idx u :
  let e := str_lower (url_path_ext u) in
  fname_of idx u
  = format_04d idx
    ++ (if bool_decide (1 ≤ length e ≤ 6)%nat then e else py ".jpg")
  ∧ Forall ascii_digit (format_04d idx)
  ∧ digits_value (format_04d idx) = idx
  ∧ length (format_04d idx) = (4 `max` length (uint_digits (Nat.to_uint idx)))%nat.
Proof.
  simpl. split; [|apply format_04d_spec].
  unfold fname_of. f_equal.
  destruct (str_lower (url_path_ext u)) as [|c e] eqn:He; simpl; [done|].
  destruct (6 <? S (length e))%nat eqn:Hlen.
  - apply Nat.ltb_lt in Hlen. rewrite bool_decide_eq_false_2; [done|lia].
  - apply Nat.ltb_ge in Hlen. rewrite bool_decide_eq_true_2; [done|lia].
Qed.

End file_names.

(** ** Downloads *)

Section downloads.
Context `{RT : Runtime}.
Variable w : World.

(** C6, as the code has it.  When the response succeeds, the item fails
    as not an image exactly when the lower-cased declared content type
    does not contain [image] and the URL does not match the pattern of
    image extensions; the file is then not written; and a URL that
    matches the pattern never fails for that reason, whatever the content
    type. *)
Theorem download_one_not_an_image dir u out_path r :
  http_get w u = Some r →
  let ctype := str_lower (default [] (resp_content_type r)) in
  let res := (download_one w dir u out_path).1 in
  ((∃ ct, reason res = NotAnImage ct)
   ↔ contains (py "image") ctype = false ∧ is_probably_image_url u = false)
  ∧ ((∃ ct, reason res = NotAnImage ct) →
     reason res = NotAnImage ctype ∧ ok res = false
     ∧ (download_one w dir u out_path).2 = dir)
  ∧ (is_probably_image_url u = true → ∀ ct, reason res ≠ NotAnImage ct).
Proof.
  intros Hget. simpl. unfold download_one. rewrite Hget.
  destruct (contains (py "image") (str_lower (default [] (resp_content_type r))));
    destruct (is_probably_image_url u); simpl.
  4: { split; [|split]; [split| |]; eauto; done. }
  all: case_ifs.
  all: split; [|split]; [split| |]; try (intros [ct ?]; done);
    try (intros [? ?]; done); try done.
Qed.

(** The result of a download does not depend on the directory, and the
    download touches no file but its own. *)
Lemma download_one_result dir u out_path :
  (download_one w dir u out_path).1 = (download_one w ∅ u out_path).1.
Proof.
  unfold download_one. destruct (http_get w u) as [r|]; [|done].
  case_ifs; done.
Qed.

Lemma download_one_other dir u out_path f :
  f ≠ out_path → (download_one w dir u out_path).2 !! f = dir !! f.
Proof.
  intros Hne. unfold download_one. destruct (http_get w u) as [r|]; [|done].
  case_ifs; try done; by rewrite lookup_insert_ne.
Qed.

(** A response that passes every check but carries fewer than 1024 bytes. *)
Lemma download_one_too_small dir u out_path r :
  http_get w u = Some r →
  contains (py "image") (str_lower (default [] (resp_content_type r))) = true
    ∨ is_probably_image_url u = true →
  open_fails w out_path = false → resp_stream_breaks r = false →
  (length (concat (resp_chunks r)) < 1024)%nat →
  (download_one w dir u out_path).1
  = {| ok := false; path := out_path; url := u; reason := TooSmall |}.
Proof.
  intros Hget Himg Hopen Hbreak Hlen. unfold download_one. rewrite Hget, Hopen, Hbreak.
  assert (concat (filter (fun chunk => chunk ≠ []) (resp_chunks r))
          = concat (resp_chunks r)) as ->.
  { clear. induction (resp_chunks r) as [|c cs IH]; [done|].
    rewrite filter_cons. destruct c as [|b c].
    - rewrite decide_False by auto. simpl. exact IH.
    - rewrite decide_True by done. simpl. by rewrite IH. }
  apply Nat.ltb_lt in Hlen. rewrite Hlen.
  destruct Himg as [-> | ->]; simpl; [done|]. by rewrite andb_false_r.
Qed.

Lemma download_item_failed st idx u :
  ok (download_one w ∅ u (fname_of idx u)).1 = false →
  let st' := download_item w st (idx, u) in
  ok_count st' = ok_count st
  ∧ failures st' = failures st ++ [(u, reason (download_one w ∅ u (fname_of idx u)).1)]
  ∧ (remove_fails w (fname_of idx u) = false →
     images_dir st' !! fname_of idx u = None)
  ∧ (∀ f, f ≠ fname_of idx u → images_dir st' !! f = images_dir st !! f).
Proof.
  intros Hok. simpl. unfold download_item.
  pose proof (download_one_result (images_dir st) u (fname_of idx u)) as Hres.
  pose proof (download_one_other (images_dir st) u (fname_of idx u)) as Hother.
  destruct (download_one w (images_dir st) u (fname_of idx u)) as [res dir].
  simpl in *. rewrite <- Hres in *. rewrite Hok. simpl.
  split; [done|]. split; [done|]. split.
  - intros ->. simpl. rewrite andb_true_r. case_bool_decide as Hex.
    + apply lookup_delete_eq.
    + by apply eq_None_not_Some.
  - intros f Hf. rewrite <- (Hother f Hf).
    destruct (bool_decide (is_Some (dir !! fname_of idx u))
              && negb (remove_fails w (fname_of idx u))); [|done].
    by rewrite lookup_delete_ne.
Qed.

Lemma download_item_ok st idx u :
  ok (download_one w ∅ u (fname_of idx u)).1 = true →
  let st' := download_item w st (idx, u) in
  ok_count st' = S (ok_count st)
  ∧ failures st' = failures st
  ∧ (∀ f, f ≠ fname_of idx u → images_dir st' !! f = images_dir st !! f).
Proof.
  intros Hok. simpl. unfold download_item.
  pose proof (download_one_result (images_dir st) u (fname_of idx u)) as Hres.
  pose proof (download_one_other (images_dir st) u (fname_of idx u)) as Hother.
  destruct (download_one w (images_dir st) u (fname_of idx u)) as [res dir].
  simpl in *. rewrite <- Hres in *. rewrite Hok. simpl. done.
Qed.

Lemma download_loop_files items all st :
  (∀ f, remove_fails w f = false) →
  (∀ item, item ∈ items → item ∈ all) →
  (∀ f, is_Some (images_dir st !! f) → file_of_success w all f) →
  ∀ f, is_Some (images_dir (foldl (download_item w) st items) !! f) →
       file_of_success w all f.
Proof.
  intros Hrm. revert st. induction items as [|[idx u] items IH]; intros st Hall Hst;
    [done|].
  cbn [foldl]. apply IH.
  { intros item Hitem. apply Hall. by right. }
  intros f Hf.
  destruct (ok (download_one w ∅ u (fname_of idx u)).1) eqn:Hok.
  - destruct (download_item_ok st idx u Hok) as (_ & _ & Hother).
    destruct (decide (f = fname_of idx u)) as [->|Hne].
    + exists idx, u. split; [apply Hall; by left|done].
    + apply Hst. by rewrite <- (Hother f Hne).
  - destruct (download_item_failed st idx u Hok) as (_ & _ & Hgone & Hother).
    destruct (decide (f = fname_of idx u)) as [->|Hne].
    + rewrite (Hgone (Hrm _)) in Hf. by destruct Hf.
    + apply Hst. by rewrite <- (Hother f Hne).
Qed.

(** C7, as the code has it.  When no removal raises: an item whose
    response passes every check but whose file has fewer than 1024 bytes
    is a failure with the reason [TooSmall]; every failed item is counted
    as no success and recorded, and its file is gone when the next item is
    processed; and when archiving begins every file of the working
    directory is the file of a download that succeeded. *)
Theorem failed_downloads_leave_no_file urls :
  (∀ f, remove_fails w f = false) →
  (∀ dir u out_path r,
     http_get w u = Some r →
     contains (py "image") (str_lower (default [] (resp_content_type r))) = true
       ∨ is_probably_image_url u = true →
     open_fails w out_path = false → resp_stream_breaks r = false →
     (length (concat (resp_chunks r)) < 1024)%nat →
     ok (download_one w dir u out_path).1 = false
     ∧ reason (download_one w dir u out_path).1 = TooSmall)
  ∧ (∀ st idx u,
       ok (download_one w ∅ u (fname_of idx u)).1 = false →
       ok_count (download_item w st (idx, u)) = ok_count st
       ∧ failures (download_item w st (idx, u))
         = failures st ++ [(u, reason (download_one w ∅ u (fname_of idx u)).1)]
       ∧ images_dir (download_item w st (idx, u)) !! fname_of idx u = None)
  ∧ (∀ f, is_Some (images_dir (download_all w urls) !! f) →
          file_of_success w (enumerate1 urls) f).
Proof.
  intros Hrm. split; [|split].
  - intros dir u out_path r Hget Himg Hopen Hbreak Hlen.
    by rewrite (download_one_too_small dir u out_path r).
  - intros st idx u Hok.
    destruct (download_item_failed st idx u Hok) as (H1 & H2 & H3 & _).
    split; [done|]. split; [done|]. by apply H3.
  - unfold download_all. apply download_loop_files; [done|done|].
    intros f. simpl. rewrite lookup_empty. by intros [? ?].
Qed.

End downloads.

(** ** The run *)

Section run.
Context `{RT : Runtime}.

Lemma download_loop_ok_count w items st :
  ok_count (foldl (download_item w) st items)
  = (ok_count st + length (filter (fun item => download_ok w item = true) items))%nat.
Proof.
  revert st. induction items as [|[idx u] items IH]; intros st; [simpl; lia|].
  cbn [foldl]. rewrite IH, filter_cons.
  destruct (download_ok w (idx, u)) eqn:Hok.
  - destruct (download_item_ok w st idx u Hok) as (-> & _).
    rewrite decide_True by done. simpl. lia.
  - destruct (download_item_failed w st idx u Hok) as (-> & _).
    rewrite decide_False by done. lia.
Qed.

(** No download is counted exactly when every download fails. *)
Lemma download_all_none_ok w urls :
  ok_count (download_all w urls) = 0%nat
  ↔ Forall (fun item => download_ok w item = false) (enumerate1 urls).
Proof.
  unfold download_all. rewrite download_loop_ok_count. simpl.
  induction (enumerate1 urls) as [|item items IH]; [by split; [constructor|]|].
  rewrite filter_cons, Forall_cons. destruct (download_ok w item) eqn:Hok.
  - rewrite decide_True by done. simpl. split; [lia|]. by intros [? _].
  - rewrite decide_False by done. rewrite IH. split; [done|]. by intros [_ ?].
Qed.

Lemma download_all_some_ok w urls :
  ok_count (download_all w urls) ≠ 0%nat
  ↔ Exists (fun item => download_ok w item = true) (enumerate1 urls).
Proof.
  rewrite download_all_none_ok.
  induction (enumerate1 urls) as [|x l IH].
  - split; [intros H; by destruct H|by intros ?%Exists_nil].
  - rewrite Forall_cons, Exists_cons, <- IH.
    destruct (download_ok w x).
    + split; [by left|]. intros _ [? _]. done.
    + split; [intros H; right; tauto|]. intros [?|?]; [done|tauto].
Qed.

(** Packaging ends the run with code 0 and an archive, or with an
    exception of the ZIP fallback that nobody catches. *)
Lemma package_cases w args dir :
  (∃ ar, package w args dir = Exit 0 (Some ar))
  ∨ (∃ e, package w args dir = Uncaught e).
Proof.
  unfold package.
  destruct (find_rar_executable w (arg_rar args)) as [rar_cmd|].
  - destruct (make_cbr_with_rar w rar_cmd dir _); [eauto|].
    destruct (make_cbz_zip w dir _); eauto.
  - destruct (make_cbz_zip w dir _); eauto.
Qed.

(** C8.  The run exits with code 2 exactly when the page is not
    obtained, with code 3 exactly when the extraction returns and no
    candidate is left after filtering and truncation, with code 4 exactly
    when the candidates are sorted and every download fails, and with code 0
    exactly when at least one download succeeds and packaging produces an
    archive, however many downloads failed; no archive comes with the
    codes 2, 3 and 4, and no other code is the result of [sys.exit] or of
    the return of [main]. *)
Theorem exit_codes w args :
  (main w args = Exit 2 None ↔ fetched w args = None)
  ∧ (main w args = Exit 3 None
     ↔ ∃ html, fetched w args = Some html ∧ candidates args html = Ok [])
  ∧ (main w args = Exit 4 None
     ↔ ∃ html cands urls, fetched w args = Some html
         ∧ candidates args html = Ok cands ∧ cands ≠ []
         ∧ sorted_natural cands = Ok urls
         ∧ Forall (fun item => download_ok w item = false) (enumerate1 urls))
  ∧ (∀ a, main w args = Exit 0 a
     ↔ ∃ html cands urls ar, a = Some ar
         ∧ fetched w args = Some html
         ∧ candidates args html = Ok cands ∧ cands ≠ []
         ∧ sorted_natural cands = Ok urls
         ∧ Exists (fun item => download_ok w item = true) (enumerate1 urls)
         ∧ package w args (images_dir (download_all w urls)) = Exit 0 (Some ar))
  ∧ (∀ code a, main w args = Exit code a →
       (code = 0%Z ∧ is_Some a)
       ∨ ((code = 2%Z ∨ code = 3%Z ∨ code = 4%Z) ∧ a = None)).
Proof.
  unfold main, fetched.
  destruct (if arg_playwright args then fetch_rendered w (arg_url args)
            else fetch_plain w (arg_url args)) as [html|].
  2: { repeat split; try done; try (by intros (? & ? & ?)).
       - by intros (? & ? & ? & ? & ?).
       - by intros (? & ? & ? & ? & ? & ? & ?).
       - intros code a [= <- <-]. right. auto. }
  destruct (candidates args html) as [cands|e0] eqn:Hcands.
  2: { repeat split; try done.
       - intros (? & [= <-] & ?). congruence.
       - intros (? & ? & ? & [= <-] & ? & ?). congruence.
       - intros (? & ? & ? & ? & ? & [= <-] & ? & ?). congruence. }
  case_bool_decide as Hc.
  { subst cands. repeat split; try done.
    - eauto.
    - intros (? & ? & ? & [= <-] & Hc' & Hne & ?). congruence.
    - intros (? & ? & ? & ? & ? & [= <-] & Hc' & Hne & ?). congruence.
    - intros code a [= <- <-]. right. auto. }
  destruct (sorted_natural cands) as [urls|e] eqn:Hs.
  2: { repeat split; try done.
       - intros (? & [= <-] & ?). congruence.
       - intros (? & ? & ? & [= <-] & Hc' & ? & Hs' & ?). congruence.
       - intros (? & ? & ? & ? & ? & [= <-] & Hc' & ? & Hs' & ?). congruence. }
  case_bool_decide as Hok.
  { repeat split; try done.
    - intros (? & [= <-] & ?). congruence.
    - intros _. exists html, cands, urls. by rewrite <- download_all_none_ok.
    - intros (html' & cands' & urls' & ar & _ & [= <-] & Hc' & _ & Hs' & Hex & _).
      assert (cands' = cands) as -> by congruence.
      assert (urls' = urls) as -> by congruence.
      by apply download_all_some_ok in Hex.
    - intros code a [= <- <-]. right. auto. }
  destruct (package_cases w args (images_dir (download_all w urls)))
    as [[ar Hp]|[e Hp]]; rewrite Hp.
  - repeat split; try done.
    + intros (? & [= <-] & ?). congruence.
    + intros (html' & cands' & urls' & [= <-] & Hc' & _ & Hs' & Hall).
      assert (cands' = cands) as -> by congruence.
      assert (urls' = urls) as -> by congruence.
      by apply download_all_none_ok in Hall.
    + intros [= <-]. exists html, cands, urls, ar.
      by rewrite <- download_all_some_ok.
    + intros (html' & cands' & urls' & ar' & -> & [= <-] & Hc' & _ & Hs' & _ & Hp').
      assert (cands' = cands) as -> by congruence.
      assert (urls' = urls) as -> by congruence.
      rewrite Hp in Hp'. by injection Hp' as <-.
    + intros code a [= <- <-]. left. eauto.
  - repeat split; try done.
    + intros (? & [= <-] & ?). congruence.
    + intros (html' & cands' & urls' & [= <-] & Hc' & _ & Hs' & Hall).
      assert (cands' = cands) as -> by congruence.
      assert (urls' = urls) as -> by congruence.
      by apply download_all_none_ok in Hall.
    + intros (html' & cands' & urls' & ar' & -> & [= <-] & Hc' & _ & Hs' & _ & Hp').
      assert (cands' = cands) as -> by congruence.
      assert (urls' = urls) as -> by congruence.
      rewrite Hp in Hp'. done.
Qed.

(** A run that gets as far as packaging. *)
Lemma main_packages w args o :
  main w args = o →
  (∀ code, o ≠ Exit code None) →
  (∃ html e, fetched w args = Some html ∧ candidates args html = Raise e
             ∧ o = Uncaught e)
  ∨ (∃ html cands e, fetched w args = Some html
       ∧ candidates args html = Ok cands ∧ cands ≠ []
       ∧ sorted_natural cands = Raise e ∧ o = Uncaught e)
  ∨ (∃ html cands urls, fetched w args = Some html
       ∧ candidates args html = Ok cands ∧ cands ≠ []
       ∧ sorted_natural cands = Ok urls
       ∧ ok_count (download_all w urls) ≠ 0%nat
       ∧ o = package w args (images_dir (download_all w urls))).
Proof.
  unfold main, fetched. intros <- Hne.
  destruct (if arg_playwright args then fetch_rendered w (arg_url args)
            else fetch_plain w (arg_url args)) as [html|];
    [|by destruct (Hne 2%Z)].
  destruct (candidates args html) as [cands|e0] eqn:Hcands; [|left; eauto].
  case_bool_decide as Hc; [by destruct (Hne 3%Z)|].
  destruct (sorted_natural cands) as [urls|e] eqn:Hs.
  2: { right. left. exists html, cands, e. eauto. }
  case_bool_decide as Hok; [by destruct (Hne 4%Z)|].
  right. right. exists html, cands, urls. eauto 10.
Qed.



End run.


(** ** Responsive-source lists *)

Lemma take_drop_while {A} (p : A → bool) l : take_while p l ++ drop_while p l = l.
Proof.
  induction l as [|x l IH]; simpl; [done|]. destruct (p x); simpl; [|done].
  by rewrite IH.
Qed.

Lemma take_while_Forall {A} (p : A → bool) l :
  Forall (fun x => p x = true) (take_while p l).
Proof.
  induction l as [|x l IH]; simpl; [constructor|].
  destruct (p x) eqn:Hx; by constructor.
Qed.

Lemma drop_while_id {A} (p : A → bool) l :
  Forall (fun x => p x = false) l → drop_while p l = l.
Proof. intros [|x l' Hx _]; simpl; [done|]. by rewrite Hx. Qed.

Lemma rstrip_decomp s :
  ∃ t, s = rstrip s ++ t ∧ Forall (fun c => isspace c = true) t.
Proof.
  exists (reverse (take_while isspace (reverse s))). split.
  - unfold rstrip. rewrite <- reverse_app, take_drop_while.
    by rewrite reverse_involutive.
  - apply Forall_reverse, take_while_Forall.
Qed.

Lemma split_ws_aux_trailing cur s t :
  Forall (fun c => isspace c = true) t →
  split_ws_aux cur (s ++ t) = split_ws_aux cur s.
Proof.
  intros Ht. revert cur. induction s as [|c s IH]; intros cur; simpl.
  - revert cur. induction Ht as [|c t Hc _ IH]; intros cur; simpl; [done|].
    rewrite Hc. case_bool_decide as Hnil; rewrite IH; simpl.
    + subst. done.
    + done.
  - by rewrite !IH.
Qed.

Lemma split_ws_lstrip s : split_ws (lstrip s) = split_ws s.
Proof.
  unfold split_ws, lstrip. induction s as [|c s IH]; simpl; [done|].
  destruct (isspace c) eqn:Hc; simpl; [done|by rewrite Hc].
Qed.

(** [split] does not see the whitespace [strip] removes. *)
Lemma split_ws_strip_eq s : split_ws (strip s) = split_ws s.
Proof.
  unfold strip. destruct (rstrip_decomp (lstrip s)) as (t & Hs & Ht).
  rewrite <- (split_ws_lstrip s). rewrite Hs at 2. unfold split_ws.
  by rewrite split_ws_aux_trailing.
Qed.

Lemma reverse_nil_inv {A} (l : list A) : reverse l = [] → l = [].
Proof.
  intros H. apply (f_equal length) in H. rewrite length_reverse in H.
  by destruct l.
Qed.

Lemma split_ws_aux_fields cur s f :
  Forall (fun c => isspace c = false) cur → f ∈ split_ws_aux cur s →
  f ≠ [] ∧ Forall (fun c => isspace c = false) f ∧ ∀ c, c ∈ f → c ∈ cur ∨ c ∈ s.
Proof.
  revert cur. induction s as [|c0 s IH]; intros cur Hcur; simpl.
  - case_bool_decide as Hnil; [by intros ?%elem_of_nil|].
    intros ->%list_elem_of_singleton. split; [|split].
    + intros H. apply Hnil. by apply reverse_nil_inv.
    + by apply Forall_reverse.
    + intros c Hc. rewrite elem_of_reverse in Hc. by left.
  - destruct (isspace c0) eqn:Hc0.
    + case_bool_decide as Hnil.
      * intros Hf. destruct (IH [] (Forall_nil_2 _) Hf) as (H1 & H2 & H3).
        split; [done|]. split; [done|]. intros c Hc.
        destruct (H3 c Hc) as [?%elem_of_nil|?]; [done|]. right. by right.
      * intros [->|Hf]%elem_of_cons.
        -- split; [|split].
           ++ intros H. apply Hnil. by apply reverse_nil_inv.
           ++ by apply Forall_reverse.
           ++ intros c Hc. rewrite elem_of_reverse in Hc. by left.
        -- destruct (IH [] (Forall_nil_2 _) Hf) as (H1 & H2 & H3).
           split; [done|]. split; [done|]. intros c Hc.
           destruct (H3 c Hc) as [?%elem_of_nil|?]; [done|]. right. by right.
    + intros Hf. destruct (IH (c0 :: cur) (Forall_cons_2 _ _ _ Hc0 Hcur) Hf)
        as (H1 & H2 & H3).
      split; [done|]. split; [done|]. intros c Hc.
      destruct (H3 c Hc) as [[->|?]%elem_of_cons|?]; [right; by left|by left|].
      right. by right.
Qed.

Lemma strip_no_space f : Forall (fun c => isspace c = false) f → strip f = f.
Proof.
  intros Hf. unfold strip, lstrip, rstrip. rewrite (drop_while_id _ f Hf).
  rewrite drop_while_id by (by apply Forall_reverse).
  apply reverse_involutive.
Qed.

Lemma split_on_no_sep sep s : Forall (Forall (fun c => c ≠ sep)) (split_on sep s).
Proof.
  induction s as [|c s IH]; simpl; [by repeat constructor|].
  destruct (c =? sep) eqn:Hc.
  - by repeat constructor.
  - apply N.eqb_neq in Hc. destruct (split_on sep s) as [|p ps]; [by repeat constructor|].
    apply Forall_cons in IH as [Hp Hps]. by repeat constructor.
Qed.

Lemma parse_srcset_part_spec urls part :
  parse_srcset_part urls part = urls ++ omap first_field [part].
Proof.
  unfold parse_srcset_part, first_field. simpl.
  rewrite <- (split_ws_strip_eq part). case_bool_decide as Hnil.
  - rewrite Hnil. simpl. by rewrite app_nil_r.
  - destruct (split_ws (strip part)) as [|f fs] eqn:Hs.
    { by apply split_ws_strip in Hnil. }
    simpl. assert (f ∈ split_ws_aux [] (strip part)) as Hf.
    { unfold split_ws in Hs. rewrite Hs. by left. }
    apply split_ws_aux_fields in Hf as (Hne & Hsp & _); [|constructor].
    rewrite (strip_no_space f Hsp). by rewrite bool_decide_eq_false_2.
Qed.

Lemma parse_srcset_loop parts acc :
  foldl parse_srcset_part acc parts = acc ++ omap first_field parts.
Proof.
  revert acc. induction parts as [|part parts IH]; intros acc; simpl.
  - by rewrite app_nil_r.
  - rewrite IH, parse_srcset_part_spec. simpl.
    destruct (first_field part); simpl; [|by rewrite app_nil_r].
    by rewrite <- app_assoc.
Qed.

(** X1.  [parse_srcset] returns, in order, the first whitespace-delimited
    field of every comma-separated entry that has one: the two [strip]
    change nothing, [part.split()[0]] is never out of range, and every URL
    returned is not empty and holds neither whitespace nor a comma. *)
Theorem parse_srcset_first_fields srcset :
  parse_srcset srcset = omap first_field (split_on 44 srcset)
  ∧ Forall (fun u => u ≠ [] ∧ Forall (fun c => isspace c = false ∧ c ≠ 44) u)
      (parse_srcset srcset).
Proof.
  assert (parse_srcset srcset = omap first_field (split_on 44 srcset)) as Heq.
  { unfold parse_srcset. by rewrite parse_srcset_loop. }
  split; [done|]. rewrite Heq. apply Forall_forall. intros u Hu.
  apply list_elem_of_omap in Hu as (part & Hpart & Hfield).
  unfold first_field in Hfield.
  destruct (split_ws part) as [|f fs] eqn:Hs; [done|]. injection Hfield as ->.
  assert (u ∈ split_ws_aux [] part) as Hin.
  { unfold split_ws in Hs. rewrite Hs. by left. }
  apply split_ws_aux_fields in Hin as (Hne & Hsp & Hsub); [|constructor].
  split; [done|]. apply Forall_forall. intros c Hc. split.
  - rewrite Forall_forall in Hsp. by apply Hsp.
  - destruct (Hsub c Hc) as [?%elem_of_nil|Hcp]; [done|].
    pose proof (split_on_no_sep 44 srcset) as Hno.
    rewrite Forall_forall in Hno. specialize (Hno part Hpart).
    rewrite Forall_forall in Hno. by apply Hno.
Qed.


(** ** The pattern of image URLs *)

Section image_pattern.
Context `{RT : Runtime}.

Lemma ignorecase_prefix_Some pat s r :
  ignorecase_prefix pat s = Some r ↔ ∃ m, s = m ++ r ∧ matches_ignorecase pat m.
Proof.
  revert s. induction pat as [|p pat IH]; intros s; simpl.
  - split.
    + intros [= <-]. exists []. split; [done|constructor].
    + intros (m & -> & Hm). by inversion Hm.
  - destruct s as [|c s].
    + split; [done|]. intros (m & Hs & Hm). inversion Hm; subst. done.
    + destruct (re_ignorecase_eq p c) eqn:Hpc.
      * rewrite IH. split.
        -- intros (m & -> & Hm). exists (c :: m). split; [done|by constructor].
        -- intros (m & Hs & Hm). inversion Hm as [|? c' ? m' Hc' Hm']; subst.
           injection Hs as <- ->. eauto.
      * split; [done|]. intros (m & Hs & Hm).
        inversion Hm as [|? c' ? m' Hc' Hm']; subst. injection Hs as <- ->.
        congruence.
Qed.

Lemma img_ext_end_spec r : img_ext_end r = true ↔ ext_terminator r.
Proof.
  unfold img_ext_end, ext_terminator. destruct r as [|c r]; [by split; auto|].
  rewrite !orb_true_iff, andb_true_iff, !N.eqb_eq, bool_decide_eq_true. simpl.
  split.
  - intros [[->| ->]|[-> ->]]; auto.
  - intros [?|[[= -> ->]|[[= ->]|[= ->]]]]; [done|auto..].
Qed.

Lemma img_ext_match_here_spec s :
  img_ext_match_here s = true
  ↔ ∃ e m r, s = 46 :: m ++ r ∧ e ∈ IMG_EXTS ∧ matches_ignorecase e m
      ∧ ext_terminator r.
Proof.
  unfold img_ext_match_here. destruct s as [|c s].
  { split; [done|]. by intros (? & ? & ? & ? & _). }
  rewrite andb_true_iff, N.eqb_eq, existsb_exists. split.
  - intros [-> (e & He & Hm)].
    destruct (ignorecase_prefix e s) as [r|] eqn:Hp; [|done].
    apply ignorecase_prefix_Some in Hp as (m & -> & Hm').
    exists e, m, r. split; [done|]. split; [by apply list_elem_of_In|].
    split; [done|]. by apply img_ext_end_spec.
  - intros (e & m & r & [= -> ->] & He & Hm & Hr). split; [done|].
    exists e. split; [by apply list_elem_of_In|].
    assert (ignorecase_prefix e (m ++ r) = Some r) as ->
      by (apply ignorecase_prefix_Some; eauto).
    by apply img_ext_end_spec.
Qed.

Lemma img_ext_search_spec u :
  img_ext_search u = true ↔ ∃ p s, u = p ++ s ∧ img_ext_match_here s = true.
Proof.
  induction u as [|c u IH]; simpl.
  - split; [done|]. intros (p & s & Hu & Hs).
    symmetry in Hu. apply app_eq_nil in Hu as [_ ->]. done.
  - rewrite orb_true_iff, IH. split.
    + intros [H|(p & s & -> & Hs)].
      * by exists [], (c :: u).
      * by exists (c :: p), s.
    + intros ([|c' p] & s & Hu & Hs); simpl in Hu.
      * subst. by left.
      * injection Hu as <- ->. right. eauto.
Qed.

(** X2.  [is_probably_image_url] accepts exactly the strings that hold,
    anywhere, a dot, one of the eight extensions in some letter case, and
    then nothing, a final newline, a question mark or a hash.  So a string
    without a dot is never accepted, and what is accepted stays accepted
    with anything in front of it. *)
Theorem is_probably_image_url_spec u :
  (is_probably_image_url u = true
   ↔ ∃ p e m r, u = p ++ 46 :: m ++ r ∧ e ∈ IMG_EXTS ∧ matches_ignorecase e m
       ∧ ext_terminator r)
  ∧ (46 ∉ u → is_probably_image_url u = false)
  ∧ (∀ p, is_probably_image_url u = true → is_probably_image_url (p ++ u) = true).
Proof.
  assert (∀ v, is_probably_image_url v = true
            ↔ ∃ p e m r, v = p ++ 46 :: m ++ r ∧ e ∈ IMG_EXTS
                ∧ matches_ignorecase e m ∧ ext_terminator r) as Hspec.
  { intros v. unfold is_probably_image_url. rewrite img_ext_search_spec. split.
    - intros (p & s & -> & Hs).
      apply img_ext_match_here_spec in Hs as (e & m & r & -> & He & Hm & Hr).
      by exists p, e, m, r.
    - intros (p & e & m & r & -> & He & Hm & Hr). exists p, (46 :: m ++ r).
      split; [done|]. apply img_ext_match_here_spec. by exists e, m, r. }
  split; [apply Hspec|]. split.
  - intros Hdot. destruct (is_probably_image_url u) eqn:Hu; [|done].
    apply Hspec in Hu as (p & e & m & r & -> & _). destruct Hdot.
    apply elem_of_app. right. by left.
  - intros p Hu. apply Hspec in Hu as (p' & e & m & r & -> & He & Hm & Hr).
    apply Hspec. exists (p ++ p'), e, m, r. by rewrite <- app_assoc.
Qed.

End image_pattern.


(** ** When the key is computed, and what the sort returns *)

Section natural_key_domain.
Context `{RT : Runtime}.

Lemma rmap_Raise_iff {A B} (f : A → result B) l :
  (∃ e, rmap f l = Raise e) ↔ ∃ x, x ∈ l ∧ ∃ e, f x = Raise e.
Proof.
  induction l as [|a l IH]; simpl.
  - split; [by intros [? ?]|]. by intros (? & ?%elem_of_nil & _).
  - destruct (f a) as [y|e0] eqn:Hfa; simpl.
    + split.
      * intros [e He]. destruct (rmap f l) eqn:Hr; simpl in He; [done|].
        destruct (proj1 IH) as (x & Hx & Hex); [eauto|].
        exists x. split; [by right|done].
      * intros (x & Hx & e & He). apply elem_of_cons in Hx as [->|Hx]; [congruence|].
        destruct (proj2 IH) as [e' He']; [eauto|]. rewrite He'. simpl. eauto.
    + split; [|eauto]. intros _. exists a. split; [by left|eauto].
Qed.


Lemma rmap_exn {A B} (f : A → result B) l e0 e :
  (∀ x e', f x = Raise e' → e' = e0) → rmap f l = Raise e → e = e0.
Proof.
  intros Hf. induction l as [|a l IH]; simpl; [done|].
  destruct (f a) as [y|e1] eqn:Hfa; simpl.
  - destruct (rmap f l); simpl; [done|]. intros [= <-]. by apply IH.
  - intros [= <-]. by eapply Hf.
Qed.

Lemma natural_key_exn s e : natural_key s = Raise e → e = ValueError.
Proof. apply rmap_key_of_token_exn, re_split_digits_shape. Qed.

Lemma rmap_Ok_iff {A B} (f : A → result B) l :
  (∃ r, rmap f l = Ok r) ↔ Forall (fun x => ∃ y, f x = Ok y) l.
Proof.
  induction l as [|a l IH]; simpl.
  - split; [constructor|eauto].
  - rewrite Forall_cons, <- IH. destruct (f a) as [y|e]; simpl.
    + destruct (rmap f l) as [ys|e]; simpl.
      * split; eauto.
      * split; [by intros [? ?]|]. by intros [_ [? ?]].
    + split; [by intros [? ?]|]. by intros [[? ?] _].
Qed.

Lemma split_shape_pieces l :
  split_shape l → Forall (fun t => text_piece t ∨ digit_run t) l.
Proof.
  induction 1 as [t Ht|t d rest Ht Hd Hrest IH _].
  - constructor; [by left|constructor].
  - constructor; [by left|]. constructor; [by right|done].
Qed.

Lemma key_of_token_raises t :
  text_piece t ∨ digit_run t →
  ((∃ e, key_of_token t = Raise e) ↔ other_digit_piece t ∨ long_digit_run t).
Proof.
  assert (text_piece t → digit_run t → False) as Hexcl.
  { intros Ht [Hne Hd]. destruct t as [|c t]; [done|].
    apply Forall_cons in Ht as [Hc _]. apply Forall_cons in Hd as [Hc' _].
    congruence. }
  intros [Ht|Hd].
  - destruct (key_of_token_text t Ht) as [[Hdig ->]|[Hdig ->]].
    + split; [by intros [? ?]|]. intros [[Hne Hall]|[Hrun _]]; [|by destruct Hexcl].
      destruct t as [|c t]; [done|]. unfold isdigit in Hdig.
      assert (forallb (fun c => is_decimal c || unicode_other_digit c) (c :: t) = true)
        as Hall'; [|congruence].
      apply forallb_forall. intros x Hx. apply list_elem_of_In in Hx.
      rewrite Forall_forall in Hall. destruct (Hall x Hx) as [_ ->].
      apply orb_true_r.
    + split; [|eauto]. intros _. left. destruct t as [|c t]; [done|]. split; [done|].
      unfold isdigit in Hdig. rewrite forallb_forall in Hdig. apply Forall_forall.
      intros x Hx. unfold text_piece in Ht. rewrite Forall_forall in Ht.
      pose proof (Ht x Hx) as Hxd.
      split; [done|]. apply list_elem_of_In in Hx. specialize (Hdig x Hx).
      by rewrite Hxd in Hdig.
  - destruct (key_of_token_digit_run t Hd) as [(Hlen & n & _ & ->)|[Hlen ->]].
    + split; [by intros [? ?]|]. intros [[_ Hall]|[_ Hlong]]; [|congruence].
      destruct Hexcl; [|done]. eapply Forall_impl; [exact Hall|]. by intros x [? _].
    + split; [|eauto]. intros _. by right.
Qed.

(** X3.  [natural_key] raises nothing but [ValueError], and it raises
    exactly when one of the pieces [re.split] returns is a non-empty string
    of characters that [isdigit] accepts and that are not decimal, or a run
    of more decimal digits than [int] converts. *)
Theorem natural_key_raises_iff s :
  (∀ e, natural_key s = Raise e → e = ValueError)
  ∧ ((∃ e, natural_key s = Raise e)
     ↔ ∃ t, t ∈ re_split_digits s ∧ (other_digit_piece t ∨ long_digit_run t)).
Proof.
  split.
  - apply natural_key_exn.
  - unfold natural_key. rewrite rmap_Raise_iff.
    pose proof (split_shape_pieces _ (re_split_digits_shape s)) as Hp.
    rewrite Forall_forall in Hp. split.
    + intros (t & Ht & He). exists t. split; [done|].
      by apply key_of_token_raises; [apply Hp|].
    + intros (t & Ht & Hbad). exists t. split; [done|].
      by apply key_of_token_raises; [apply Hp|].
Qed.

Lemma natural_key_embedded p d q :
  ends_without_digit p → starts_without_digit q → digit_run d →
  natural_key (p ++ d ++ q)
  = (kp ←! rmap key_of_token (re_split_digits p);
     kd ←! key_of_token d;
     kq ←! rmap key_of_token (re_split_digits q);
     Ok (kp ++ kd :: kq)).
Proof.
  intros Hp Hq Hd. unfold natural_key.
  rewrite re_split_digits_embedded by done.
  rewrite rmap_app. destruct (rmap key_of_token (re_split_digits p)); simpl; [|done].
  destruct (key_of_token d); simpl; [|done].
  by destruct (rmap key_of_token (re_split_digits q)).
Qed.

(** X4.  A zero in front of an embedded run of decimal digits does not
    change the key, as long as the longer run is within what [int]
    converts: the two strings tie, and [sorted] returns them in the order
    in which it got them.  When the zero takes the run over the cap, the key
    of the longer string is not computed. *)
Theorem natural_key_leading_zero p z d q n ka :
  ends_without_digit p → starts_without_digit q →
  unicode_decimal z = Some 0 → int d = Ok n →
  natural_key (p ++ d ++ q) = Ok ka →
  if int_too_long (z :: d)
  then natural_key (p ++ (z :: d) ++ q) = Raise ValueError
  else natural_key (p ++ (z :: d) ++ q) = Ok ka
       ∧ sorted_natural [p ++ d ++ q; p ++ (z :: d) ++ q]
         = Ok [p ++ d ++ q; p ++ (z :: d) ++ q]
       ∧ sorted_natural [p ++ (z :: d) ++ q; p ++ d ++ q]
         = Ok [p ++ (z :: d) ++ q; p ++ d ++ q].
Proof.
  intros Hp Hq Hz Hn Hka.
  pose proof (int_Ok_run d n Hn) as Hd.
  assert (digit_run (z :: d)) as Hzd.
  { split; [done|]. constructor; [|by destruct Hd].
    unfold is_decimal. by rewrite Hz. }
  rewrite (natural_key_embedded p d q) in Hka by done.
  rewrite (key_of_token_run d n Hn) in Hka.
  destruct (int_too_long (z :: d)) eqn:Hlen.
  - rewrite (natural_key_embedded p (z :: d) q) by done.
    destruct (rmap key_of_token (re_split_digits p)); simpl in *; [|done].
    destruct (key_of_token_digit_run (z :: d) Hzd) as [[? _]|[_ ->]];
      [congruence|done].
  - assert (int (z :: d) = Ok n) as Hzn.
    { unfold int in *. rewrite Hlen. destruct (int_too_long d); [done|].
      destruct d as [|c d]; [done|]. simpl in *. by rewrite Hz. }
    assert (natural_key (p ++ d ++ q) = Ok ka) as Hkd.
    { rewrite (natural_key_embedded p d q) by done.
      by rewrite (key_of_token_run d n Hn). }
    assert (natural_key (p ++ (z :: d) ++ q) = Ok ka) as Hkz.
    { rewrite (natural_key_embedded p (z :: d) q) by done.
      by rewrite (key_of_token_run (z :: d) n Hzn). }
    split; [done|]. unfold sorted_natural. cbn [rmap]. rewrite Hkd, Hkz. simpl.
    by rewrite key_lt_irrefl.
Qed.

Lemma insert_by_key_same_key (x : list key_elem * str) r r' k :
  insert_by_key x r = Ok r' →
  filter (fun y => y.1 = k) r'
  = (if decide (x.1 = k) then [x] else []) ++ filter (fun y => y.1 = k) r.
Proof.
  revert r'. induction r as [|y r IH]; intros r'; simpl.
  - intros [= <-]. rewrite filter_cons, filter_nil. by destruct (decide (x.1 = k)).
  - destruct (key_lt y.1 x.1) as [[]|] eqn:Hlt; simpl; [| |done].
    + destruct (insert_by_key x r) as [r''|]; simpl; [|done]. intros [= <-].
      rewrite !filter_cons, (IH r'' eq_refl).
      destruct (decide (y.1 = k)) as [Hy|Hy]; [|done].
      destruct (decide (x.1 = k)) as [Hx|Hx]; [|done].
      rewrite Hy, Hx, key_lt_irrefl in Hlt. done.
    + intros [= <-]. rewrite filter_cons. by destruct (decide (x.1 = k)).
Qed.

Lemma sort_by_key_same_key (l r : list (list key_elem * str)) k :
  sort_by_key l = Ok r →
  filter (fun y => y.1 = k) r = filter (fun y => y.1 = k) l.
Proof.
  revert r. induction l as [|x l IH]; intros r; simpl.
  - by intros [= <-].
  - destruct (sort_by_key l) as [r0|]; simpl; [|done]. intros Hins.
    rewrite (insert_by_key_same_key _ _ _ k Hins), (IH r0 eq_refl), filter_cons.
    by destruct (decide (x.1 = k)).
Qed.

Lemma filter_keyed_snd (l : list (list key_elem * str)) k :
  Forall keyed l →
  (filter (fun y => y.1 = k) l).*2 = filter (fun a => natural_key a = Ok k) l.*2.
Proof.
  induction 1 as [|x l Hx _ IH]; [done|].
  rewrite fmap_cons, !filter_cons. unfold keyed in Hx.
  destruct (decide (x.1 = k)) as [Hk|Hk].
  - rewrite decide_True by congruence. rewrite fmap_cons. by f_equal.
  - rewrite decide_False by congruence. done.
Qed.

(** X5.  [sorted] with [natural_key] returns exactly when every key is
    computed, and raises [ValueError] otherwise; what it returns is the
    list reordered, no string after a later one in the natural order, and
    the strings of one key in the order in which they came. *)
Theorem sorted_natural_spec l :
  ((∃ r, sorted_natural l = Ok r) ↔ Forall (fun a => ∃ k, natural_key a = Ok k) l)
  ∧ (∀ e, sorted_natural l = Raise e → e = ValueError)
  ∧ (∀ r, sorted_natural l = Ok r →
       r ≡ₚ l ∧ StronglySorted natural_le r
       ∧ ∀ k, filter (fun a => natural_key a = Ok k) r
              = filter (fun a => natural_key a = Ok k) l).
Proof.
  split; [|split].
  - split; [|apply sorted_natural_total].
    intros [r Hr]. apply rmap_Ok_iff. unfold sorted_natural in Hr.
    destruct (rmap natural_key l); [eauto|done].
  - intros e. unfold sorted_natural.
    destruct (rmap natural_key l) as [keys|e'] eqn:Hkeys; simpl.
    + destruct (rmap_natural_key_zip l keys Hkeys) as [Hkeyed _].
      destruct (sort_by_key_spec (zip keys l)) as (r' & -> & _); [|done].
      eapply Forall_impl; [exact Hkeyed|]. intros x Hx. by eapply natural_key_shape.
    + intros [= <-]. eapply rmap_exn; [|exact Hkeys]. apply natural_key_exn.
  - intros r Hr. destruct (sorted_natural_Ok l r Hr) as [Hp Hs].
    split; [done|]. split; [done|]. intros k. unfold sorted_natural in Hr.
    destruct (rmap natural_key l) as [keys|] eqn:Hkeys; simpl in Hr; [|done].
    destruct (rmap_natural_key_zip l keys Hkeys) as [Hkeyed Hsnd].
    destruct (sort_by_key (zip keys l)) as [r'|] eqn:Hsort; simpl in Hr; [|done].
    injection Hr as <-.
    destruct (sort_by_key_spec (zip keys l)) as (r'' & Hr'' & Hp' & _).
    { eapply Forall_impl; [exact Hkeyed|]. intros x Hx. by eapply natural_key_shape. }
    rewrite Hsort in Hr''. injection Hr'' as <-.
    rewrite <- (filter_keyed_snd r' k) by (by rewrite Hp').
    rewrite (sort_by_key_same_key _ _ k Hsort).
    rewrite (filter_keyed_snd _ k Hkeyed). by rewrite Hsnd.
Qed.

End natural_key_domain.


(** ** What the extractor and the sequencer hand on *)

Section sequencer.
Context `{RT : Runtime}.

Lemma extract_Ok_discovered base_url html out :
  extract_image_urls_from_html base_url html = Ok out →
  ∃ found, discovered base_url html = Ok found ∧ out = first_occurrences found.
Proof.
  rewrite extract_first_occurrences.
  destruct (discovered base_url html) as [found|]; simpl; [|done].
  intros [= <-]. eauto.
Qed.

(** X6.  Every URL the extractor returns is a collected raw value, cleaned
    and resolved against the base URL; the cleaned value handed to
    [urljoin] is never empty and neither starts nor ends with whitespace. *)
Theorem extract_resolves_trimmed base_url html out a :
  extract_image_urls_from_html base_url html = Ok out → a ∈ out →
  ∃ raw, raw ∈ collected html
    ∧ urljoin base_url (clean_url raw) = Ok a
    ∧ clean_url raw ≠ []
    ∧ (∀ c, head (clean_url raw) = Some c → isspace c = false)
    ∧ (∀ c, last (clean_url raw) = Some c → isspace c = false).
Proof.
  intros (found & Hfound & ->)%extract_Ok_discovered.
  rewrite first_occurrences_elem. unfold discovered in Hfound.
  rewrite (rmap_id_elem _ _ _ Hfound).
  intros (raw & Hraw & Hn)%list_elem_of_omap.
  unfold normalize in Hn. case_bool_decide as Hne; [done|]. injection Hn as Hn.
  exists raw. split; [done|]. split; [done|]. split; [done|].
  unfold clean_url. apply strip_ends.
Qed.

(** X7.  The candidates are computed exactly when the extractor returns.
    They are values of the extractor, each once, in the order of discovery;
    with the extension filter on, each matches the pattern of image URLs; a
    positive [--max-images] keeps at most that many, the first discovered;
    zero or a negative number keeps all of them. *)
Theorem candidates_spec args html :
  (∀ e, candidates args html = Raise e
        ↔ extract_image_urls_from_html (arg_url args) html = Raise e)
  ∧ (∀ out, extract_image_urls_from_html (arg_url args) html = Ok out →
     ∃ cands, candidates args html = Ok cands
       ∧ NoDup cands
       ∧ cands `sublist_of` out
       ∧ (arg_no_ext_filter args = false →
          Forall (fun u => is_probably_image_url u = true) cands)
       ∧ ((0 < arg_max_images args)%Z →
          (length cands ≤ Z.to_nat (arg_max_images args))%nat
          ∧ cands `prefix_of`
              (if arg_no_ext_filter args then out
               else filter (fun u => is_probably_image_url u = true) out))
       ∧ ((arg_max_images args ≤ 0)%Z →
          cands
          = if arg_no_ext_filter args then out
            else filter (fun u => is_probably_image_url u = true) out)).
Proof.
  unfold candidates. split.
  { intros e. by destruct (extract_image_urls_from_html (arg_url args) html). }
  intros out Hout. rewrite Hout. cbn [rbind].
  set (kept := if arg_no_ext_filter args then out
               else filter (fun u => is_probably_image_url u = true) out).
  assert (kept `sublist_of` out) as Hsub.
  { unfold kept. destruct (arg_no_ext_filter args); [done|apply sublist_filter]. }
  assert (NoDup out) as Hnd.
  { apply extract_Ok_discovered in Hout as (found & _ & ->).
    apply first_occurrences_NoDup. }
  assert (arg_no_ext_filter args = false →
          Forall (fun u => is_probably_image_url u = true) kept) as Hpat.
  { intros Hf. unfold kept. rewrite Hf. apply Forall_forall.
    by intros u [? _]%list_elem_of_filter. }
  eexists. split; [done|].
  destruct (0 <? arg_max_images args)%Z eqn:Hmax.
  - apply Z.ltb_lt in Hmax.
    assert (take (Z.to_nat (arg_max_images args)) kept `sublist_of` out) as Hsub'.
    { etrans; [apply sublist_take|done]. }
    split; [by eapply sublist_NoDup|]. split; [done|]. split.
    { intros Hf. by apply Forall_take, Hpat. }
    split; [|lia]. intros _. split.
    + rewrite length_take. lia.
    + apply prefix_take.
  - apply Z.ltb_ge in Hmax.
    split; [by eapply sublist_NoDup|]. split; [done|]. split; [done|].
    split; [lia|done].
Qed.

End sequencer.


(** ** One download, and the loop over the candidates *)

Section download_facts.
Context `{RT : Runtime}.
Variable w : World.

Lemma concat_nonempty_chunks (chunks : list (list Byte.byte)) :
  concat (filter (fun chunk => chunk ≠ []) chunks) = concat chunks.
Proof.
  induction chunks as [|c cs IH]; [done|].
  rewrite filter_cons. destruct c as [|b c].
  - rewrite decide_False by auto. simpl. exact IH.
  - rewrite decide_True by done. simpl. by rewrite IH.
Qed.

(** X8.  [download_one] reports the path and the URL it was given, and
    succeeds exactly when it gives no reason.  When it succeeds, the file
    holds the whole body of the response, of at least 1024 bytes.  It
    touches no other file, and it leaves the directory as it was when the
    request fails, when the response is not taken for an image, or when
    the file cannot be opened. *)
Theorem download_one_outcomes dir u out_path :
  path (download_one w dir u out_path).1 = out_path
  ∧ url (download_one w dir u out_path).1 = u
  ∧ (ok (download_one w dir u out_path).1 = true
     ↔ reason (download_one w dir u out_path).1 = NoReason)
  ∧ (ok (download_one w dir u out_path).1 = true →
     ∃ r, http_get w u = Some r
       ∧ (download_one w dir u out_path).2 = <[out_path := body r]> dir
       ∧ (1024 ≤ length (body r))%nat)
  ∧ (∀ f, f ≠ out_path → (download_one w dir u out_path).2 !! f = dir !! f)
  ∧ (http_get w u = None
     ∨ reason (download_one w dir u out_path).1 = FsError
     ∨ (∃ ct, reason (download_one w dir u out_path).1 = NotAnImage ct) →
     (download_one w dir u out_path).2 = dir).
Proof.
  split; [|split; [|split; [|split; [|split]]]].
  - unfold download_one. destruct (http_get w u); [|done]. case_ifs; done.
  - unfold download_one. destruct (http_get w u); [|done]. case_ifs; done.
  - unfold download_one. destruct (http_get w u); [|done]. case_ifs; done.
  - unfold download_one, body. destruct (http_get w u) as [r|]; [|done].
    rewrite concat_nonempty_chunks.
    destruct (negb _ && negb _); [done|]. destruct (open_fails w out_path); [done|].
    destruct (resp_stream_breaks r); [done|].
    destruct (length (concat (resp_chunks r)) <? 1024)%nat eqn:Hlen; [done|].
    intros _. exists r. apply Nat.ltb_ge in Hlen. done.
  - intros f Hf. by apply download_one_other.
  - unfold download_one. destruct (http_get w u) as [r|]; [|done].
    destruct (negb _ && negb _); [done|]. destruct (open_fails w out_path); [done|].
    intros [?|[H|[ct H]]]; [done| |]; revert H; case_ifs; done.
Qed.

(** A download that succeeds, seen from the empty directory. *)
Lemma download_ok_body idx u :
  download_ok w (idx, u) = true →
  ∃ r, http_get w u = Some r ∧ (1024 ≤ length (body r))%nat
    ∧ ∀ dir, (download_one w dir u (fname_of idx u)).2
             = <[fname_of idx u := body r]> dir.
Proof.
  unfold download_ok, download_one, body. simpl.
  destruct (http_get w u) as [r|]; [|done]. rewrite concat_nonempty_chunks.
  destruct (negb _ && negb _); [done|].
  destruct (open_fails w (fname_of idx u)); [done|].
  destruct (resp_stream_breaks r); [done|].
  destruct (length (concat (resp_chunks r)) <? 1024)%nat eqn:Hlen; [done|].
  intros _. exists r. apply Nat.ltb_ge in Hlen. done.
Qed.

Lemma download_loop_failures items st :
  failures (foldl (download_item w) st items)
  = failures st
    ++ (failure_of w <$> filter (fun item => download_ok w item = false) items).
Proof.
  revert st. induction items as [|[idx u] items IH]; intros st.
  - simpl. by rewrite app_nil_r.
  - cbn [foldl]. rewrite IH, filter_cons.
    destruct (download_ok w (idx, u)) eqn:Hok.
    + destruct (download_item_ok w st idx u Hok) as (_ & -> & _).
      by rewrite decide_False by done.
    + destruct (download_item_failed w st idx u Hok) as (_ & -> & _).
      rewrite decide_True by done. rewrite fmap_cons, <- app_assoc. done.
Qed.

Lemma length_enumerate1 {A} (l : list A) : length (enumerate1 l) = length l.
Proof. unfold enumerate1. rewrite length_zip_with, length_seq. lia. Qed.

(** X9.  The loop attempts every candidate once: the successes counted
    and the failures recorded add up to the number of candidates, and the
    failures are recorded in the order of the candidates, each with the
    reason of its own download; no failure stops the loop. *)
Theorem download_all_accounts urls :
  (ok_count (download_all w urls) + length (failures (download_all w urls))
   = length urls)%nat
  ∧ ok_count (download_all w urls)
    = length (filter (fun item => download_ok w item = true) (enumerate1 urls))
  ∧ failures (download_all w urls)
    = failure_of w
      <$> filter (fun item => download_ok w item = false) (enumerate1 urls).
Proof.
  unfold download_all. rewrite download_loop_ok_count, download_loop_failures.
  simpl. split; [|done]. rewrite length_fmap, <- (length_enumerate1 urls).
  induction (enumerate1 urls) as [|item items IH]; [done|].
  rewrite !filter_cons. destruct (download_ok w item).
  - rewrite decide_True by done. rewrite decide_False by done. simpl in *. lia.
  - rewrite decide_False by done. rewrite decide_True by done. simpl in *. lia.
Qed.

End download_facts.


(** ** File names and the working directory *)

Section directory.
Context `{RT : Runtime}.

Lemma fname_of_dotted idx u :
  ext_dotted → ∃ e, fname_of idx u = format_04d idx ++ 46 :: e.
Proof.
  intros Hext. unfold fname_of. specialize (Hext u).
  destruct (str_lower (url_path_ext u)) as [|c e]; simpl.
  - by exists (py "jpg").
  - subst c. destruct (6 <? S (length e))%nat; [by exists (py "jpg")|by exists e].
Qed.

Lemma digits_prefix_inj l1 l2 r1 r2 :
  Forall ascii_digit l1 → Forall ascii_digit l2 →
  l1 ++ 46 :: r1 = l2 ++ 46 :: r2 → l1 = l2.
Proof.
  intros H1. revert l2. induction H1 as [|c l1 Hc _ IH]; intros l2 H2 Heq.
  - destruct H2 as [|c l2 Hc _]; [done|]. injection Heq as <- _.
    unfold ascii_digit in Hc. lia.
  - destruct H2 as [|c' l2 Hc' H2]; simpl in Heq.
    + injection Heq as -> _. unfold ascii_digit in Hc. lia.
    + injection Heq as <- Heq. f_equal. by apply IH.
Qed.

Lemma format_04d_inj idx idx' : format_04d idx = format_04d idx' → idx = idx'.
Proof.
  intros Heq. destruct (format_04d_spec idx) as (_ & <- & _).
  destruct (format_04d_spec idx') as (_ & <- & _). by rewrite Heq.
Qed.

Lemma fname_of_inj idx u idx' u' :
  ext_dotted → fname_of idx u = fname_of idx' u' → idx = idx'.
Proof.
  intros Hext Heq. destruct (fname_of_dotted idx u Hext) as [e He].
  destruct (fname_of_dotted idx' u' Hext) as [e' He'].
  rewrite He, He' in Heq. apply format_04d_inj.
  eapply digits_prefix_inj; [apply format_04d_spec..|done].
Qed.

(** X10.  Two candidates at different indices never get the same file
    name, whatever their URLs and however many candidates there are: no
    download overwrites the file of another. *)
Theorem fname_of_distinct idx u idx' u' :
  ext_dotted → idx ≠ idx' → fname_of idx u ≠ fname_of idx' u'.
Proof. intros Hext Hne Heq. by apply Hne, (fname_of_inj idx u idx' u'). Qed.

Lemma enumerate1_snoc {A} (l : list A) x :
  enumerate1 (l ++ [x]) = enumerate1 l ++ [(S (length l), x)].
Proof.
  unfold enumerate1. rewrite length_app. simpl.
  rewrite seq_app. simpl. rewrite zip_with_app by (by rewrite length_seq). done.
Qed.

Lemma enumerate1_bounds {A} (l : list A) idx u :
  (idx, u) ∈ enumerate1 l → (1 ≤ idx ≤ length l)%nat.
Proof. intros H%elem_of_zip_l. apply elem_of_seq in H. lia. Qed.

Lemma enumerate1_lookup {A} (l : list A) idx u :
  (idx, u) ∈ enumerate1 l ↔ ∃ i, idx = S i ∧ l !! i = Some u.
Proof.
  unfold enumerate1. rewrite elem_of_lookup_zip_with. split.
  - intros (i & n & x & [= -> ->] & Hn & Hx). exists i.
    apply lookup_seq in Hn as [-> _]. done.
  - intros (i & -> & Hx). exists i, (S i), u. split; [done|]. split; [|done].
    apply lookup_seq. split; [done|]. by eapply lookup_lt_Some.
Qed.

Section with_world.
Variable w : World.

Lemma download_item_ok_file st idx u :
  download_ok w (idx, u) = true →
  ∃ r, http_get w u = Some r
    ∧ images_dir (download_item w st (idx, u))
      = <[fname_of idx u := body r]> (images_dir st).
Proof.
  intros Hok. destruct (download_ok_body w idx u Hok) as (r & Hr & _ & Hdir).
  exists r. split; [done|]. unfold download_item.
  pose proof (download_one_result w (images_dir st) u (fname_of idx u)) as Hres.
  specialize (Hdir (images_dir st)).
  destruct (download_one w (images_dir st) u (fname_of idx u)) as [res dir].
  simpl in *. unfold download_ok in Hok. simpl in Hok. rewrite <- Hres in Hok.
  by rewrite Hok.
Qed.

(** The file of a download that succeeded stays to the end of the loop. *)
Lemma download_all_keeps urls idx u :
  ext_dotted → (idx, u) ∈ enumerate1 urls → download_ok w (idx, u) = true →
  ∃ r, http_get w u = Some r
    ∧ images_dir (download_all w urls) !! fname_of idx u = Some (body r).
Proof.
  intros Hext. unfold download_all.
  induction urls as [|x urls IH] using rev_ind; [by intros ?%elem_of_nil|].
  rewrite enumerate1_snoc, foldl_snoc.
  set (st := foldl (download_item w) _ (enumerate1 urls)) in *.
  intros [Hin|Hin%list_elem_of_singleton]%elem_of_app Hok.
  - destruct (IH Hin Hok) as (r & Hr & Hfile). exists r. split; [done|].
    assert (fname_of idx u ≠ fname_of (S (length urls)) x) as Hne.
    { apply enumerate1_bounds in Hin. intros Heq.
      apply (fname_of_inj _ _ _ _ Hext) in Heq. lia. }
    destruct (download_ok w (S (length urls), x)) eqn:Hx.
    + destruct (download_item_ok w st _ _ Hx) as (_ & _ & Hother).
      by rewrite Hother.
    + destruct (download_item_failed w st _ _ Hx) as (_ & _ & _ & Hother).
      by rewrite Hother.
  - injection Hin as -> ->.
    destruct (download_item_ok_file st _ _ Hok) as (r & Hr & ->).
    exists r. split; [done|]. apply lookup_insert_eq.
Qed.

Lemma download_all_lookup urls f data :
  ext_dotted → (∀ f, remove_fails w f = false) →
  (images_dir (download_all w urls) !! f = Some data
   ↔ ∃ idx u r, (idx, u) ∈ enumerate1 urls ∧ download_ok w (idx, u) = true
       ∧ f = fname_of idx u ∧ http_get w u = Some r ∧ data = body r).
Proof.
  intros Hext Hrm. split.
  - intros Hf.
    destruct (download_loop_files w (enumerate1 urls) (enumerate1 urls)
                {| ok_count := 0; failures := []; images_dir := ∅ |} Hrm)
      with (f := f) as (idx & u & Hin & -> & Hok); [done| |by eauto|].
    { intros f'. simpl. rewrite lookup_empty. by intros [? ?]. }
    destruct (download_all_keeps urls idx u Hext Hin Hok) as (r & Hr & Hfile).
    exists idx, u, r. rewrite Hfile in Hf. injection Hf as <-. done.
  - intros (idx & u & r & Hin & Hok & -> & Hr & ->).
    destruct (download_all_keeps urls idx u Hext Hin Hok) as (r' & Hr' & Hfile).
    congruence.
Qed.

Lemma fname_of_oks_NoDup urls :
  ext_dotted →
  NoDup ((fun item => fname_of item.1 item.2)
         <$> filter (fun item => download_ok w item = true) (enumerate1 urls)).
Proof.
  intros Hext. apply NoDup_fmap_2_strong.
  - intros [idx u] [idx' u'] [_ Hin]%list_elem_of_filter
      [_ Hin']%list_elem_of_filter Heq.
    simpl in Heq. apply (fname_of_inj _ _ _ _ Hext) in Heq as <-.
    apply enumerate1_lookup in Hin as (i & Hidx & Hi).
    apply enumerate1_lookup in Hin' as (i' & Hidx' & Hi').
    assert (i = i') as <- by lia. congruence.
  - apply NoDup_filter. unfold enumerate1. apply NoDup_zip_l, NoDup_seq.
Qed.

Lemma download_all_dom urls f :
  ext_dotted → (∀ f, remove_fails w f = false) →
  (is_Some (images_dir (download_all w urls) !! f)
   ↔ f ∈ (fun item => fname_of item.1 item.2)
         <$> filter (fun item => download_ok w item = true) (enumerate1 urls)).
Proof.
  intros Hext Hrm. rewrite list_elem_of_fmap. split.
  - intros [data Hf].
    apply download_all_lookup in Hf as (idx & u & r & Hin & Hok & -> & _); [|done..].
    exists (idx, u). split; [done|]. by apply list_elem_of_filter.
  - intros ([idx u] & -> & [Hok Hin]%list_elem_of_filter).
    destruct (download_all_keeps urls idx u Hext Hin Hok) as (r & _ & Hfile).
    eauto.
Qed.

(** X11.  When no removal raises, the working directory holds at the end
    of the loop exactly the files of the downloads that succeeded, each
    under the name of its index and with the whole body of its response;
    their number is the number of successes counted. *)
Theorem download_all_directory urls :
  ext_dotted → (∀ f, remove_fails w f = false) →
  (∀ f data,
     images_dir (download_all w urls) !! f = Some data
     ↔ ∃ idx u r, (idx, u) ∈ enumerate1 urls ∧ download_ok w (idx, u) = true
         ∧ f = fname_of idx u ∧ http_get w u = Some r ∧ data = body r)
  ∧ size (images_dir (download_all w urls)) = ok_count (download_all w urls).
Proof.
  intros Hext Hrm. split; [intros f data; by apply download_all_lookup|].
  rewrite <- size_dom.
  assert (dom (images_dir (download_all w urls))
          = list_to_set ((fun item => fname_of item.1 item.2)
              <$> filter (fun item => download_ok w item = true) (enumerate1 urls)))
    as ->.
  { apply set_eq. intros f. rewrite elem_of_dom, elem_of_list_to_set.
    by apply download_all_dom. }
  rewrite size_list_to_set by (by apply fname_of_oks_NoDup).
  rewrite length_fmap. unfold download_all. by rewrite download_loop_ok_count.
Qed.

End with_world.

End directory.


(** ** The archive *)

Section archive.
Context `{RT : Runtime}.

Lemma int_ascii_digits s acc :
  ascii_digits_decimal → Forall ascii_digit s →
  int_digits acc s
  = Ok (N.of_nat (foldl (fun a c => (10 * a + N.to_nat (c - 48))%nat)
                    (N.to_nat acc) s)).
Proof.
  intros [Hdec _] Hs. revert acc. induction Hs as [|c s Hc _ IH]; intros acc; simpl.
  - by rewrite N2Nat.id.
  - rewrite (Hdec c Hc), IH. do 3 f_equal. unfold ascii_digit in Hc. lia.
Qed.

Lemma digit_run_format_04d idx : ascii_digits_decimal → digit_run (format_04d idx).
Proof.
  intros [Hdec _]. destruct (format_04d_spec idx) as (Hdig & _ & Hlen). split.
  - intros Hnil. rewrite Hnil in Hlen. simpl in Hlen. lia.
  - eapply Forall_impl; [exact Hdig|]. intros c Hc. unfold is_decimal.
    by rewrite (Hdec c Hc).
Qed.

(** When [int] converts the digits of a file name, it returns the index. *)
Lemma int_format_04d idx n :
  ascii_digits_decimal → int (format_04d idx) = Ok n → n = N.of_nat idx.
Proof.
  intros Hadd. destruct (format_04d_spec idx) as (Hdig & Hval & Hlen).
  unfold int. destruct (int_too_long (format_04d idx)); [done|].
  destruct (format_04d idx) as [|c s] eqn:Hf; [done|].
  rewrite (int_ascii_digits _ 0 Hadd Hdig). rewrite <- Hval. by intros [= <-].
Qed.

(** The key of a file name: the empty text, the index, the key of the
    extension. *)
Lemma natural_key_fname idx u ka :
  ext_dotted → ascii_digits_decimal →
  natural_key (fname_of idx u) = Ok ka →
  ∃ kq, ka = KStr (str_lower []) :: KInt (N.of_nat idx) :: kq.
Proof.
  intros Hext Hadd. destruct (fname_of_dotted idx u Hext) as [e ->].
  change (format_04d idx ++ 46 :: e) with ([] ++ format_04d idx ++ 46 :: e).
  rewrite (natural_key_embedded [] _ _).
  - assert (rmap key_of_token (re_split_digits []) = Ok [KStr (str_lower [])])
      as -> by reflexivity.
    cbn [rbind].
    destruct (key_of_token_digit_run _ (digit_run_format_04d idx Hadd))
      as [(_ & n & Hn & ->)|[_ ->]]; cbn [rbind]; [|done].
    apply (int_format_04d idx n Hadd) in Hn as ->.
    destruct (rmap key_of_token (re_split_digits (46 :: e))) as [kq|];
      simpl; [|done]. intros [= <-]. eauto.
  - by intros c.
  - intros c [= <-]. unfold is_decimal. destruct Hadd as [_ ->]. done.
  - by apply digit_run_format_04d.
Qed.

Lemma fname_key_lt idx u idx' u' ka kb :
  ext_dotted → ascii_digits_decimal → (idx < idx')%nat →
  natural_key (fname_of idx u) = Ok ka → natural_key (fname_of idx' u') = Ok kb →
  key_lt ka kb = Ok true.
Proof.
  intros Hext Hadd Hlt Ha Hb.
  apply natural_key_fname in Ha as [kq ->]; [|done..].
  apply natural_key_fname in Hb as [kq' ->]; [|done..].
  simpl. rewrite bool_decide_eq_true_2 by done.
  replace (N.of_nat idx =? N.of_nat idx') with false
    by (symmetry; apply N.eqb_neq; lia).
  f_equal. apply N.ltb_lt. lia.
Qed.

(** X12.  The natural order of the file names is the order of their
    indices, beyond 9999 too: of two names whose keys are computed, the one
    of the smaller index is not after the other, whatever the extensions. *)
Theorem fname_of_sorts_by_index idx u idx' u' ka kb :
  ext_dotted → ascii_digits_decimal → (idx < idx')%nat →
  natural_key (fname_of idx u) = Ok ka → natural_key (fname_of idx' u') = Ok kb →
  key_lt ka kb = Ok true ∧ key_lt kb ka = Ok false
  ∧ sorted_natural [fname_of idx' u'; fname_of idx u]
    = Ok [fname_of idx u; fname_of idx' u'].
Proof.
  intros Hext Hadd Hlt Ha Hb.
  pose proof (fname_key_lt _ _ _ _ _ _ Hext Hadd Hlt Ha Hb) as Hab.
  split; [done|]. split; [by apply key_lt_asym|].
  by apply (sorted_natural_pair _ _ ka kb).
Qed.

Lemma sorted_natural_keys l r :
  sorted_natural l = Ok r → Forall (fun a => ∃ k, natural_key a = Ok k) l.
Proof.
  unfold sorted_natural. intros Hr. apply rmap_Ok_iff.
  destruct (rmap natural_key l); [eauto|done].
Qed.

Lemma sorted_natural_Raise l e :
  sorted_natural l = Raise e →
  e = ValueError ∧ ∃ a, a ∈ l ∧ natural_key a = Raise ValueError.
Proof.
  unfold sorted_natural.
  destruct (rmap natural_key l) as [keys|e'] eqn:Hkeys; simpl.
  - destruct (rmap_natural_key_zip l keys Hkeys) as [Hkeyed _].
    destruct (sort_by_key_spec (zip keys l)) as (r' & -> & _); [|done].
    eapply Forall_impl; [exact Hkeyed|]. intros x Hx. by eapply natural_key_shape.
  - intros [= <-].
    assert (e' = ValueError) as -> by (eapply rmap_exn; [|exact Hkeys];
                                        apply natural_key_exn).
    split; [done|].
    destruct (proj1 (rmap_Raise_iff natural_key l)) as (a & Ha & e & He); [eauto|].
    exists a. split; [done|]. by rewrite (natural_key_exn a e He) in He.
Qed.

Lemma sorted_natural_Raise_2 l a e :
  a ∈ l → natural_key a = Raise e → sorted_natural l = Raise ValueError.
Proof.
  intros Ha He. destruct (sorted_natural l) as [r|e'] eqn:Hs.
  - apply sorted_natural_keys in Hs. rewrite Forall_forall in Hs.
    destruct (Hs a Ha) as [k Hk]. congruence.
  - by apply sorted_natural_Raise in Hs as [-> _].
Qed.


End archive.


(** ** The pages in the archive *)

Section pages.
Context `{RT : Runtime}.

Lemma enumerate1_sorted {A} (l : list A) :
  StronglySorted (fun x y => (x.1 < y.1)%nat) (enumerate1 l).
Proof.
  induction l as [|x l IH] using rev_ind; [constructor|].
  rewrite enumerate1_snoc. apply StronglySorted_app. split; [|split; [done|]].
  - intros [i a] y Hi ->%list_elem_of_singleton. apply enumerate1_bounds in Hi.
    simpl. lia.
  - repeat constructor.
Qed.

Lemma StronglySorted_filter {A} (R : relation A) (P : A → Prop)
    `{!∀ x, Decision (P x)} l :
  StronglySorted R l → StronglySorted R (filter P l).
Proof.
  induction 1 as [|x l Hs IH Hall]; [constructor|].
  rewrite filter_cons. destruct (decide (P x)); [|done].
  constructor; [done|]. apply Forall_forall. intros y [_ Hy]%list_elem_of_filter.
  rewrite Forall_forall in Hall. by apply Hall.
Qed.

Lemma StronglySorted_fmap_elem {A B} (R1 : relation A) (R2 : relation B)
    (f : A → B) l :
  StronglySorted R1 l →
  (∀ x y, x ∈ l → y ∈ l → R1 x y → R2 (f x) (f y)) →
  StronglySorted R2 (f <$> l).
Proof.
  induction 1 as [|x l Hs IH Hall]; intros Hf; [constructor|].
  rewrite fmap_cons. constructor.
  - apply IH. intros y z Hy Hz. apply Hf; by right.
  - apply Forall_fmap, Forall_forall. intros y Hy. rewrite Forall_forall in Hall.
    apply Hf; [by left|by right|by apply Hall].
Qed.

Section with_world.
Variable w : World.

(** The sorted listing of the working directory is the list of the files
    of the successes, in the order of the candidates. *)
Lemma sorted_files_download_all urls files :
  ext_dotted → ascii_digits_decimal → (∀ f, remove_fails w f = false) →
  sorted_files (images_dir (download_all w urls)) = Ok files →
  files = name_of <$> successes w urls.
Proof.
  intros Hext Hadd Hrm Hs. unfold sorted_files in Hs.
  set (dir := images_dir (download_all w urls)) in *.
  destruct (sorted_natural_Ok _ _ Hs) as [Hperm Hsorted].
  pose proof (sorted_natural_keys _ _ Hs) as Hkeys. rewrite Forall_forall in Hkeys.
  assert (∀ f, f ∈ name_of <$> successes w urls ↔ f ∈ elements (dom dir)) as Hmem.
  { intros f. rewrite elem_of_elements, elem_of_dom. symmetry.
    by apply download_all_dom. }
  assert (name_of <$> successes w urls ≡ₚ elements (dom dir)) as Hperm'.
  { apply NoDup_Permutation; [by apply fname_of_oks_NoDup|apply NoDup_elements|done]. }
  assert (StronglySorted natural_le (name_of <$> successes w urls)) as Hsorted'.
  { eapply (StronglySorted_fmap_elem (fun x y => (x.1 < y.1)%nat)).
    - apply StronglySorted_filter, enumerate1_sorted.
    - intros [idx u] [idx' u'] Hx Hy Hlt. simpl in Hlt.
      destruct (Hkeys (name_of (idx, u))) as [ka Ha].
      { apply Hmem, list_elem_of_fmap. eauto. }
      destruct (Hkeys (name_of (idx', u'))) as [kb Hb].
      { apply Hmem, list_elem_of_fmap. eauto. }
      exists ka, kb. split; [done|]. split; [done|]. unfold key_le.
      apply key_lt_asym.
      by apply (fname_key_lt idx u idx' u'). }
  eapply (StronglySorted_unique_strong natural_le); [|done|done|by rewrite Hperm'].
  intros x1 x2 Hx1 Hx2 (k1 & k2 & Hk1 & Hk2 & H12) (k2' & k1' & Hk2' & Hk1' & H21).
  rewrite Hk1 in Hk1'. injection Hk1' as <-. rewrite Hk2 in Hk2'. injection Hk2' as <-.
  unfold key_le in *. rewrite Hperm in Hx1. apply Hmem in Hx1.
  apply list_elem_of_fmap in Hx1 as ([i1 u1] & -> & [_ Hin1]%list_elem_of_filter).
  apply list_elem_of_fmap in Hx2 as ([i2 u2] & -> & [_ Hin2]%list_elem_of_filter).
  destruct (lt_eq_lt_dec i1 i2) as [[Hlt| ->]|Hlt].
  - pose proof (fname_key_lt i1 u1 i2 u2 k1 k2 Hext Hadd Hlt Hk1 Hk2). congruence.
  - apply enumerate1_lookup in Hin1 as (j1 & Hj1 & Hl1).
    apply enumerate1_lookup in Hin2 as (j2 & Hj2 & Hl2).
    assert (j1 = j2) as <- by lia. congruence.
  - pose proof (fname_key_lt i2 u2 i1 u1 k2 k1 Hext Hadd Hlt Hk2 Hk1). congruence.
Qed.

Lemma archived_entries urls :
  ext_dotted →
  (fun f => (f, default [] (images_dir (download_all w urls) !! f)))
  <$> (name_of <$> successes w urls)
  = archived w <$> successes w urls.
Proof.
  intros Hext. rewrite <- list_fmap_compose. apply list_fmap_ext.
  intros i [idx u] Hi. apply list_elem_of_lookup_2 in Hi.
  apply list_elem_of_filter in Hi as [Hok Hin].
  destruct (download_all_keeps w urls idx u Hext Hin Hok) as (r & Hr & Hfile).
  unfold archived, name_of. simpl. by rewrite Hfile, Hr.
Qed.

Lemma successes_nonempty urls :
  ok_count (download_all w urls) ≠ 0%nat → successes w urls ≠ [].
Proof.
  intros (item & Hin & Hitem)%download_all_some_ok%Exists_exists Hnil.
  assert (item ∈ successes w urls) as H by (by apply list_elem_of_filter).
  rewrite Hnil in H. by apply elem_of_nil in H.
Qed.

(** X14.  When no removal raises, the archive of a run that ends with
    code 0 holds the candidates whose download succeeded, and nothing
    else, in the natural-sort order of their URLs: the command line of the
    packer that [find_rar_executable] returned lists their files in that
    order, and the ZIP archive has one entry for each, in that order, named
    after the index of the candidate and holding the whole body of its
    response. *)
Theorem main_archive_pages args a :
  ext_dotted → ascii_digits_decimal → (∀ f, remove_fails w f = false) →
  main w args = Exit 0 (Some a) →
  ∃ html cands urls,
    fetched w args = Some html
    ∧ candidates args html = Ok cands
    ∧ sorted_natural cands = Ok urls
    ∧ successes w urls ≠ []
    ∧ ((∃ rar_cmd,
          find_rar_executable w (arg_rar args) = Some rar_cmd
          ∧ a = RarArchive (arg_output args ++ py ".cbr")
                  ([rar_cmd; py "a"; py "-ep"; py "-idq";
                    arg_output args ++ py ".cbr"]
                   ++ (name_of <$> successes w urls)))
       ∨ a = ZipDeflated (arg_output args ++ py ".cbz")
               (archived w <$> successes w urls)).
Proof.
  intros Hext Hadd Hrm Hmain.
  destruct (main_packages w args _ Hmain) as
    [(? & ? & _ & _ & ?)|[(? & ? & ? & _ & _ & _ & _ & ?)
     |(html & cands & urls & Hf & Hc & Hne & Hs & Hok & Hp)]]; [done..|].
  exists html, cands, urls. split; [done|]. split; [done|]. split; [done|].
  split; [by apply successes_nonempty|].
  revert Hp. unfold package, make_cbr_with_rar, make_cbz_zip.
  destruct (sorted_files (images_dir (download_all w urls))) as [files|] eqn:Hfiles;
    simpl.
  2: { by destruct (find_rar_executable w (arg_rar args)). }
  apply sorted_files_download_all in Hfiles as ->; [|done..].
  rewrite bool_decide_eq_false_2
    by (intros H; apply fmap_nil_inv in H; by apply successes_nonempty in H).
  rewrite (archived_entries urls Hext).
  destruct (find_rar_executable w (arg_rar args)) as [rar_cmd|].
  - destruct (run_rar w _).
    + intros [= ->]. left. eauto.
    + destruct (zip_fails w _); [done|]. intros [= ->]. by right.
  - destruct (zip_fails w _); [done|]. intros [= ->]. by right.
Qed.




End with_world.

End pages.

(** ** Concrete runs *)

Lemma natural_key_embedded_integer_witness :
  ∃ kb, natural_key (RT:=Latin1.plain) (py "img" ++ py "10" ++ py ".jpg") = Ok kb
    ∧ key_lt [KStr (py "img"); KInt 2; KStr (py ".jpg")] kb = Ok true
    ∧ key_lt kb [KStr (py "img"); KInt 2; KStr (py ".jpg")] = Ok false
    ∧ sorted_natural (RT:=Latin1.plain)
        [py "img" ++ py "2" ++ py ".jpg"; py "img" ++ py "10" ++ py ".jpg"]
      = Ok [py "img" ++ py "2" ++ py ".jpg"; py "img" ++ py "10" ++ py ".jpg"]
    ∧ sorted_natural (RT:=Latin1.plain)
        [py "img" ++ py "10" ++ py ".jpg"; py "img" ++ py "2" ++ py ".jpg"]
      = Ok [py "img" ++ py "2" ++ py ".jpg"; py "img" ++ py "10" ++ py ".jpg"].
Proof.
  apply (natural_key_embedded_integer (RT:=Latin1.plain)
           (py "img") (py ".jpg") (py "2") (py "10") 2 10).
  - intros c [= <-]. reflexivity.
  - intros c [= <-]. reflexivity.
  - reflexivity.
  - reflexivity.
  - lia.
  - reflexivity.
Defined.

(** The candidates [B] and [a]: their keys first differ at the first
    piece, which is not a digit string; [sorted] puts [a] first although
    the piece [B] is the smaller string. *)
Lemma natural_key_order_ignores_case :
  natural_key (RT:=Latin1.plain) (py "B") = Ok [KStr (py "b")]
  ∧ natural_key (RT:=Latin1.plain) (py "a") = Ok [KStr (py "a")]
  ∧ re_split_digits (RT:=Latin1.plain) (py "B") = [py "B"]
  ∧ re_split_digits (RT:=Latin1.plain) (py "a") = [py "a"]
  ∧ isdigit (RT:=Latin1.plain) (py "B") = false
  ∧ str_lt (py "B") (py "a") = true
  ∧ key_lt [KStr (py "b")] [KStr (py "a")] = Ok false
  ∧ key_lt [KStr (py "b")] [KStr (py "a")] ≠ Ok (str_lt (py "B") (py "a"))
  ∧ sorted_natural (RT:=Latin1.plain) [py "B"; py "a"] = Ok [py "a"; py "B"].
Proof. repeat split; vm_compute; done. Qed.

Lemma natural_key_order_at_first_difference_witness :
  isdigit (RT:=Latin1.plain) (py "B") = false
  ∧ key_lt [KStr (py "b")] [KStr (py "a")]
    = Ok (str_lt (str_lower (Runtime:=Latin1.plain) (py "B"))
                 (str_lower (Runtime:=Latin1.plain) (py "a"))).
Proof.
  split; [reflexivity|].
  apply (natural_key_order_at_first_difference (RT:=Latin1.plain)
           (py "B") (py "a") [KStr (py "b")] [KStr (py "a")] 0 (py "B") (py "a"));
    [reflexivity|reflexivity|reflexivity| |reflexivity|reflexivity].
  simpl. discriminate.
Defined.

(** C10.  A candidate whose last piece is SUPERSCRIPT TWO, after a run of
    decimal digits: the pattern of image URLs accepts it, [re.split] makes
    the superscript a piece of its own, [isdigit] accepts that piece, [int]
    rejects it, neither the key nor the sorted list is computed, and the run
    on a page with such an image ends with a [ValueError] nobody catches. *)
Theorem natural_key_raises_on_superscript_digit :
  is_probably_image_url (RT:=Latin1.plain) (py "https://x.test/p.jpg?v=1" ++ [178])
  = true
  ∧ re_split_digits (RT:=Latin1.plain) (py "https://x.test/p.jpg?v=1" ++ [178])
    = [py "https://x.test/p.jpg?v="; py "1"; [178]]
  ∧ isdigit (RT:=Latin1.plain) [178] = true
  ∧ int (RT:=Latin1.plain) [178] = Raise ValueError
  ∧ natural_key (RT:=Latin1.plain) (py "https://x.test/p.jpg?v=1" ++ [178])
    = Raise ValueError
  ∧ sorted_natural (RT:=Latin1.plain)
      [py "https://x.test/a.jpg"; py "https://x.test/p.jpg?v=1" ++ [178]]
    = Raise ValueError
  ∧ main (RT:=Latin1.runtime
                (Fixture.page [py "/a.jpg"; py "/p.jpg?v=1" ++ [178]]) [])
      (Fixture.world (fun _ => None) (fun _ => false) false) (Fixture.args false)
    = Uncaught ValueError.
Proof. repeat split; vm_compute; reflexivity. Qed.

(** The keys that are computed alternate, are ordered without [TypeError],
    and the sort of strings whose keys are computed returns. *)
Example natural_key_img10 :
  natural_key (RT:=Latin1.plain) (py "img10.jpg")
  = Ok [KStr (py "img"); KInt 10; KStr (py ".jpg")]
  ∧ natural_key (RT:=Latin1.plain) (py "12") = Ok [KStr []; KInt 12; KStr []]
  ∧ natural_key (RT:=Latin1.plain) [] = Ok [KStr []]
  ∧ sorted_natural (RT:=Latin1.plain)
      [py "img10.jpg"; py "IMG2.jpg"; py "img1.jpg"]
    = Ok [py "img1.jpg"; py "IMG2.jpg"; py "img10.jpg"].
Proof. repeat split; reflexivity. Qed.

(** A whitespace-only value is dropped where the four steps resolve it,
    a quoted value with inner spaces loses them, and a lone quote
    character, which surrounds nothing, is emptied. *)
Lemma normalize_is_not_four_steps :
  normalize (RT:=Latin1.plain) (py "https://x.test/p") (py " ")
  ≠ Some (four_steps (RT:=Latin1.plain) (py "https://x.test/p") (py " "))
  ∧ normalize (RT:=Latin1.plain) (py "https://x.test/p") (py " ") = None
  ∧ clean_url (RT:=Latin1.plain) ([QUOT] ++ py " a.jpg " ++ [QUOT]) = py "a.jpg"
  ∧ unquote (strip (html_unescape (Runtime:=Latin1.plain)
                      ([QUOT] ++ py " a.jpg " ++ [QUOT])))
    = py " a.jpg "
  ∧ clean_url (RT:=Latin1.plain) [QUOT] = []
  ∧ unquote (strip (html_unescape (Runtime:=Latin1.plain) [QUOT])) = [QUOT].
Proof. repeat split; vm_compute; done. Qed.

(** An extension in upper case: present, four characters long, and not
    what the file name ends with. *)
Lemma fname_of_lowers_extension :
  url_path_ext (Runtime:=Latin1.plain) (py "https://x.test/a.PNG") = py ".PNG"
  ∧ fname_of (RT:=Latin1.plain) 1 (py "https://x.test/a.PNG") = py "0001.png"
  ∧ fname_of (RT:=Latin1.plain) 1 (py "https://x.test/a.PNG")
    ≠ format_04d 1 ++ py ".PNG".
Proof. repeat split; vm_compute; done. Qed.

Example fname_of_default_extension :
  fname_of (RT:=Latin1.plain) 7 (py "https://x.test/view?id=7") = py "0007.jpg"
  ∧ fname_of (RT:=Latin1.plain) 12 (py "https://x.test/a.jpeg2000")
    = py "0012.jpg"
  ∧ fname_of (RT:=Latin1.plain) 123 (py "https://x.test/b/c.webp?x=1.5")
    = py "0123.webp"
  ∧ fname_of (RT:=Latin1.plain) (12 * 1000 + 345) (py "https://x.test/c.gif")
    = py "12345.gif".
Proof. repeat split; vm_compute; reflexivity. Qed.

(** A page that is not an image, at a URL without image extension. *)
Lemma download_one_not_an_image_witness :
  ∃ ct,
    reason (download_one (RT:=Latin1.plain)
              (Fixture.world
                 (Fixture.serve
                    [(py "https://x.test/view",
                      Fixture.response (py "text/html") 2000)])
                 (fun _ => false) false)
              ∅ (py "https://x.test/view") (py "0001.jpg")).1
    = NotAnImage ct.
Proof.
  apply (download_one_not_an_image (RT:=Latin1.plain)
           (Fixture.world
              (Fixture.serve
                 [(py "https://x.test/view", Fixture.response (py "text/html") 2000)])
              (fun _ => false) false)
           ∅ (py "https://x.test/view") (py "0001.jpg")
           (Fixture.response (py "text/html") 2000)).
  - reflexivity.
  - split; reflexivity.
Defined.

(** A content type written in upper case, at a URL without image
    extension: the type as declared does not contain [image], the URL does
    not match the pattern, and the download succeeds. *)
Lemma download_one_content_type_any_case :
  contains (py "image") (py "IMAGE/PNG") = false
  ∧ is_probably_image_url (RT:=Latin1.plain) (py "https://x.test/view?id=7") = false
  ∧ (download_one (RT:=Latin1.plain)
       (Fixture.world
          (Fixture.serve
             [(py "https://x.test/view?id=7",
               Fixture.response (py "IMAGE/PNG") 2000)])
          (fun _ => false) false)
       ∅ (py "https://x.test/view?id=7") (py "0001.jpg")).1
    = {| ok := true; path := py "0001.jpg"; url := py "https://x.test/view?id=7";
         reason := NoReason |}.
Proof. repeat split; vm_compute; reflexivity. Qed.

Lemma failed_downloads_leave_no_file_witness :
  file_of_success (RT:=Latin1.plain)
    (Fixture.world (Fixture.serve Fixture.two_images) (fun _ => false) false)
    (enumerate1 [py "https://x.test/a1.png"; py "https://x.test/a2.png"])
    (py "0002.png").
Proof.
  apply (failed_downloads_leave_no_file (RT:=Latin1.plain)
           (Fixture.world (Fixture.serve Fixture.two_images) (fun _ => false) false)
           [py "https://x.test/a1.png"; py "https://x.test/a2.png"]).
  - intros f. reflexivity.
  - exists (Fixture.bytes 2000). vm_compute. reflexivity.
Defined.

(** The removal of the file of the first image raises: the image is
    recorded as too small, its file of ten bytes stays in the working
    directory and goes into the archive. *)
Lemma failed_download_file_left_when_remove_fails :
  failures (download_all (RT:=Latin1.plain)
              (Fixture.world (Fixture.serve Fixture.two_images) (fun _ => true) false)
              [py "https://x.test/a1.png"; py "https://x.test/a2.png"])
  = [(py "https://x.test/a1.png", TooSmall)]
  ∧ images_dir (download_all (RT:=Latin1.plain)
                  (Fixture.world (Fixture.serve Fixture.two_images)
                     (fun _ => true) false)
                  [py "https://x.test/a1.png"; py "https://x.test/a2.png"])
    !! py "0001.png" = Some (Fixture.bytes 10)
  ∧ main (RT:=Latin1.runtime (Fixture.page [py "/a1.png"; py "/a2.png"]) [])
      (Fixture.world (Fixture.serve Fixture.two_images) (fun _ => true) false)
      (Fixture.args false)
    = Exit 0 (Some (ZipDeflated (py "comic.cbz")
                      [(py "0001.png", Fixture.bytes 10);
                       (py "0002.png", Fixture.bytes 2000)])).
Proof. repeat split; vm_compute; reflexivity. Qed.


(** The end-to-end scenario: three images, all downloaded, no packer. *)
Example three_images_end_to_end :
  candidates (RT:=Latin1.runtime
                    (Fixture.page [py "/a/10.jpg"; py "/a/2.jpg"; py "/a/1.jpg"]) [])
    (Fixture.args false) []
  = Ok [py "https://x.test/a/10.jpg"; py "https://x.test/a/2.jpg";
        py "https://x.test/a/1.jpg"]
  ∧ sorted_natural (RT:=Latin1.plain)
      [py "https://x.test/a/10.jpg"; py "https://x.test/a/2.jpg";
       py "https://x.test/a/1.jpg"]
    = Ok [py "https://x.test/a/1.jpg"; py "https://x.test/a/2.jpg";
          py "https://x.test/a/10.jpg"]
  ∧ main (RT:=Latin1.runtime
                (Fixture.page [py "/a/10.jpg"; py "/a/2.jpg"; py "/a/1.jpg"]) [])
      (Fixture.world (fun _ => Some (Fixture.response (py "image/jpeg") 2000))
         (fun _ => false) false)
      (Fixture.args false)
    = Exit 0 (Some (ZipDeflated (py "comic.cbz")
                      [(py "0001.jpg", Fixture.bytes 2000);
                       (py "0002.jpg", Fixture.bytes 2000);
                       (py "0003.jpg", Fixture.bytes 2000)])).
Proof. repeat split; vm_compute; reflexivity. Qed.

(** The same absolute URL from an image tag and from the scan of the
    text, after a relative one and before a padded one. *)
Example extract_image_tag_and_scan :
  extract_image_urls_from_html
    (RT:=Latin1.runtime
           (Fixture.page [py "a/2.jpg"; py "https://x.test/a/1.jpg";
                          py " /a/4.jpg "])
           [py "https://x.test/a/1.jpg"; py "https://x.test/a/3.jpg"])
    (py "https://x.test/p") []
  = Ok [py "https://x.test/a/2.jpg"; py "https://x.test/a/1.jpg";
        py "https://x.test/a/4.jpg"; py "https://x.test/a/3.jpg"]
  ∧ extract_image_urls_from_html
      (RT:=Latin1.runtime (Fixture.page [py "https://x.test/a/1.jpg"])
             [py "https://x.test/a/1.jpg"])
      (py "https://x.test/p") []
    = Ok [py "https://x.test/a/1.jpg"].
Proof. split; vm_compute; reflexivity. Qed.

(** The values of the attributes and the path given with [--rar] are
    used as they are; an empty one counts as absent. *)
Example values_used_unchanged :
  img_values (Latin1.img_src (py "x")) = [py "x"]
  ∧ img_values (Latin1.img_src []) = []
  ∧ img_values
      {[ py "srcset" := py "a.jpg 1x, b.jpg 2x" ]}
    = [py "a.jpg"; py "b.jpg"]
  ∧ img_values
      {[ py "srcset" := []; py "data-srcset" := py "c.jpg 1x" ]}
    = [py "c.jpg"]
  ∧ anchor_values (RT:=Latin1.plain) {[ py "href" := py "a.png" ]} = [py "a.png"]
  ∧ find_rar_executable
      (Fixture.world (fun _ => None) (fun _ => false) true) (Some (py "/opt/rar"))
    = Some (py "/opt/rar")
  ∧ find_rar_executable
      (Fixture.world (fun _ => None) (fun _ => false) false) (Some (py "r"))
    = Some (py "r")
  ∧ find_rar_executable
      (Fixture.world (fun _ => None) (fun _ => false) true) (Some [])
    = Some (py "rar")
  ∧ find_rar_executable
      (Fixture.world (fun _ => None) (fun _ => false) false) None
    = None.
Proof. repeat split; vm_compute; reflexivity. Qed.

(** An image whose [src] is one character, with the extension filter
    off: it is a candidate, downloaded from the URL it resolves to. *)
Example one_character_src :
  main (RT:=Latin1.runtime (Fixture.page [py "x"]) [])
    (Fixture.world
       (Fixture.serve
          [(py "https://x.test/x", Fixture.response (py "image/png") 2000)])
       (fun _ => false) false)
    (Fixture.args true)
  = Exit 0 (Some (ZipDeflated (py "comic.cbz")
                    [(py "0001.jpg", Fixture.bytes 2000)])).
Proof. vm_compute. reflexivity. Qed.

(** A URL the scan finds whose host opens a square bracket and does not
    close it: [urljoin] raises, and so do the extractor and the run. *)
Example urljoin_raises :
  urljoin (Runtime:=Latin1.plain) (py "https://x.test/p") (py "http://[x/a.jpg")
  = Raise ValueError
  ∧ extract_image_urls_from_html
      (RT:=Latin1.runtime (Fixture.page [py "/a.jpg"]) [py "http://[x/a.jpg"])
      (py "https://x.test/p") []
    = Raise ValueError
  ∧ main (RT:=Latin1.runtime (Fixture.page [py "/a.jpg"]) [py "http://[x/a.jpg"])
      (Fixture.world (fun _ => None) (fun _ => false) false) (Fixture.args false)
    = Uncaught ValueError.
Proof. repeat split; vm_compute; reflexivity. Qed.

(** A run of 4300 nines is converted; with a zero in front it is not, and
    the key of the string is not computed. *)
Example int_digit_cap :
  (∃ n, int (RT:=Latin1.plain) (replicate (43 * 100) 57) = Ok n)
  ∧ int (RT:=Latin1.plain) (48 :: replicate (43 * 100) 57) = Raise ValueError
  ∧ (∃ k, natural_key (RT:=Latin1.plain)
            (py "img" ++ replicate (43 * 100) 57 ++ py ".jpg") = Ok k)
  ∧ natural_key (RT:=Latin1.plain)
      (py "img" ++ (48 :: replicate (43 * 100) 57) ++ py ".jpg")
    = Raise ValueError.
Proof.
  split; [|split; [|split]].
  - eexists. vm_compute. reflexivity.
  - vm_compute. reflexivity.
  - eexists. vm_compute. reflexivity.
  - vm_compute. reflexivity.
Qed.

(** The ZIP archive cannot be written: the [OSError] ends the run, with
    or without a packer that fails. *)
Example zip_cannot_be_written :
  main (RT:=Latin1.runtime (Fixture.page [py "a1.png"; py "a2.png"]) [])
    (Fixture.zip_failing
       (Fixture.world (Fixture.serve Fixture.two_images) (fun _ => false) false))
    (Fixture.args false)
  = Uncaught OSError
  ∧ main (RT:=Latin1.runtime (Fixture.page [py "a1.png"; py "a2.png"]) [])
      (Fixture.zip_failing
         (with_packer
            (Fixture.world (Fixture.serve Fixture.two_images) (fun _ => false) true)
            (fun _ => true) (fun _ => false)))
      (Fixture.args false)
    = Uncaught OSError.
Proof. split; vm_compute; reflexivity. Qed.

(** A run for each exit code. *)
Example exit_code_runs :
  main (RT:=Latin1.plain)
    {| fetch_plain := fun _ => None; fetch_rendered := fun _ => None;
       http_get := fun _ => None; open_fails := fun _ => false;
       remove_fails := fun _ => false; which := fun _ => false;
       run_rar := fun _ => false; zip_fails := fun _ => false |}
    (Fixture.args false)
  = Exit 2 None
  ∧ main (RT:=Latin1.runtime (Fixture.page [py "/view?id=7"]) [])
      (Fixture.world (fun _ => None) (fun _ => false) false) (Fixture.args false)
    = Exit 3 None
  ∧ main (RT:=Latin1.runtime (Fixture.page [py "/a1.png"]) [])
      (Fixture.world (Fixture.serve Fixture.two_images) (fun _ => false) false)
      (Fixture.args false)
    = Exit 4 None
  ∧ main (RT:=Latin1.runtime (Fixture.page [py "/a1.png"; py "/a2.png"]) [])
      (Fixture.world (Fixture.serve Fixture.two_images) (fun _ => false) true)
      (Fixture.args false)
    = Exit 0 (Some (RarArchive (py "comic.cbr")
                      [py "rar"; py "a"; py "-ep"; py "-idq"; py "comic.cbr";
                       py "0002.png"])).
Proof. repeat split; vm_compute; reflexivity. Qed.


(** ** Concrete runs of the further properties *)

(** The Latin-1 runtime returns extensions that start with a dot, and
    knows the ASCII digits. *)
Lemma latin1_ext_dotted doc scan : ext_dotted (RT:=Latin1.runtime doc scan).
Proof.
  intros u. simpl. unfold Latin1.path_ext, Latin1.splitext_ext.
  by destruct (_ <? _)%nat.
Qed.

Lemma latin1_ascii_digits_decimal doc scan :
  ascii_digits_decimal (RT:=Latin1.runtime doc scan).
Proof.
  split; [|reflexivity]. intros c Hc. simpl. unfold Latin1.decimal.
  destruct (N.leb_spec 48 c), (N.leb_spec c 57); simpl; try lia; done.
Qed.

Lemma natural_key_leading_zero_witness :
  natural_key (RT:=Latin1.plain) (py "img" ++ (48 :: py "2") ++ py ".jpg")
  = Ok [KStr (py "img"); KInt 2; KStr (py ".jpg")]
  ∧ sorted_natural (RT:=Latin1.plain)
      [py "img" ++ py "2" ++ py ".jpg"; py "img" ++ (48 :: py "2") ++ py ".jpg"]
    = Ok [py "img" ++ py "2" ++ py ".jpg"; py "img" ++ (48 :: py "2") ++ py ".jpg"]
  ∧ sorted_natural (RT:=Latin1.plain)
      [py "img" ++ (48 :: py "2") ++ py ".jpg"; py "img" ++ py "2" ++ py ".jpg"]
    = Ok [py "img" ++ (48 :: py "2") ++ py ".jpg"; py "img" ++ py "2" ++ py ".jpg"].
Proof.
  apply (natural_key_leading_zero (RT:=Latin1.plain)
           (py "img") 48 (py "2") (py ".jpg") 2).
  - intros c [= <-]. reflexivity.
  - intros c [= <-]. reflexivity.
  - reflexivity.
  - reflexivity.
  - reflexivity.
Defined.

Lemma extract_resolves_trimmed_witness :
  ∃ raw,
    raw ∈ collected (RT:=Latin1.runtime (Fixture.page [py " a.jpg "]) []) []
    ∧ urljoin (Runtime:=Latin1.plain) (py "https://x.test/p")
        (clean_url (RT:=Latin1.plain) raw)
      = Ok (py "https://x.test/a.jpg")
    ∧ clean_url (RT:=Latin1.plain) raw ≠ []
    ∧ (∀ c, head (clean_url (RT:=Latin1.plain) raw) = Some c → isspace c = false)
    ∧ (∀ c, last (clean_url (RT:=Latin1.plain) raw) = Some c → isspace c = false).
Proof.
  apply (extract_resolves_trimmed
           (RT:=Latin1.runtime (Fixture.page [py " a.jpg "]) [])
           (py "https://x.test/p") [] [py "https://x.test/a.jpg"]
           (py "https://x.test/a.jpg")).
  - reflexivity.
  - by left.
Defined.

Lemma fname_of_distinct_witness :
  fname_of (RT:=Latin1.plain) 1 (py "https://x.test/a.png")
  ≠ fname_of (RT:=Latin1.plain) 2 (py "https://x.test/a.png").
Proof.
  apply (fname_of_distinct (RT:=Latin1.plain)
           1 (py "https://x.test/a.png") 2 (py "https://x.test/a.png")).
  - apply latin1_ext_dotted.
  - lia.
Defined.

Lemma download_all_directory_witness :
  size (images_dir
          (download_all (RT:=Latin1.plain)
             (Fixture.world (Fixture.serve Fixture.two_images) (fun _ => false) false)
             [py "https://x.test/a1.png"; py "https://x.test/a2.png"]))
  = ok_count
      (download_all (RT:=Latin1.plain)
         (Fixture.world (Fixture.serve Fixture.two_images) (fun _ => false) false)
         [py "https://x.test/a1.png"; py "https://x.test/a2.png"]).
Proof.
  apply (download_all_directory (RT:=Latin1.plain)
           (Fixture.world (Fixture.serve Fixture.two_images) (fun _ => false) false)
           [py "https://x.test/a1.png"; py "https://x.test/a2.png"]).
  - apply latin1_ext_dotted.
  - reflexivity.
Defined.

(** The ten-thousandth file, whose name has five digits, after the one
    before it. *)
Lemma fname_of_sorts_by_index_witness :
  key_lt [KStr []; KInt 9999; KStr (py ".png")]
         [KStr []; KInt 10000; KStr (py ".jpg")] = Ok true
  ∧ key_lt [KStr []; KInt 10000; KStr (py ".jpg")]
           [KStr []; KInt 9999; KStr (py ".png")] = Ok false
  ∧ sorted_natural (RT:=Latin1.plain)
      [fname_of (RT:=Latin1.plain) (10 * 1000) (py "https://x.test/b");
       fname_of (RT:=Latin1.plain) (9 * 1000 + 999) (py "https://x.test/a.png")]
    = Ok [fname_of (RT:=Latin1.plain) (9 * 1000 + 999) (py "https://x.test/a.png");
          fname_of (RT:=Latin1.plain) (10 * 1000) (py "https://x.test/b")].
Proof.
  apply (fname_of_sorts_by_index (RT:=Latin1.plain)
           (9 * 1000 + 999) (py "https://x.test/a.png")
           (10 * 1000) (py "https://x.test/b")).
  - apply latin1_ext_dotted.
  - apply latin1_ascii_digits_decimal.
  - lia.
  - vm_compute. reflexivity.
  - vm_compute. reflexivity.
Defined.

(** A page of two images, listed out of order, the first of which is too
    small to be kept, and a packer given with [--rar]: the command line of
    that packer names the file of the second image, under its index. *)
Lemma main_archive_pages_witness :
  ∃ urls,
    name_of (RT:=Latin1.plain)
    <$> successes (RT:=Latin1.plain)
          (Fixture.world (Fixture.serve Fixture.two_images) (fun _ => false) true)
          urls
    = [py "0002.png"]
    ∧ find_rar_executable
        (Fixture.world (Fixture.serve Fixture.two_images) (fun _ => false) true)
        (Some (py "/opt/rar"))
      = Some (py "/opt/rar").
Proof.
  destruct (main_archive_pages
              (RT:=Latin1.runtime
                     (Fixture.page [py "https://x.test/a2.png"; py "a1.png"]) [])
              (Fixture.world (Fixture.serve Fixture.two_images) (fun _ => false) true)
              (Fixture.args_with_rar (py "/opt/rar"))
              (RarArchive (py "comic.cbr")
                 [py "/opt/rar"; py "a"; py "-ep"; py "-idq"; py "comic.cbr";
                  py "0002.png"]))
    as (html & cands & urls & _ & _ & _ & _ & [(rar_cmd & Hrar & Ha)|Ha]).
  - apply latin1_ext_dotted.
  - apply latin1_ascii_digits_decimal.
  - reflexivity.
  - vm_compute. reflexivity.
  - exists urls. injection Ha as Hcmd Hnames. split.
    + symmetry. exact Hnames.
    + rewrite <- Hcmd in Hrar. exact Hrar.
  - discriminate Ha.
Defined.

